(** * CausalViewStore: the selection coordinator of the causal-graph view

    A shallow embedding of the [CausalViewStore] class (the store behind
    the causal exploration view of the RATH client) and of the reactive
    bindings its constructor sets up, followed by the properties of the
    selection state machine.

    Conventions of the embedding:
    - the string enums [NodeSelectionMode] and [ExplorationKey] are kept as
      the strings they are at run time, so that the [default] branches of
      the [switch] statements have inhabitants;
    - a mobx [reaction] runs its effect synchronously at the end of the
      action that changed the tracked value, and only when the value is
      different from the previous one;
    - [Subject.next] delivers synchronously to the one subscriber, through
      rxjs' [withLatestFrom], which drops an emission as long as the other
      stream has not produced a value;
    - every public method returns an [Outcome]: the value returned, the
      identifier sequences pushed into [selectedFidArr$], and the store
      afterwards. *)

From stdpp Require Import base strings list.

Local Open Scope string_scope.
Local Open Scope nat_scope.
Local Open Scope list_scope.

(** ** Enumerations *)

Module NodeSelectionMode.
Definition NONE : string := "0".
Definition SINGLE : string := "1".
Definition DOUBLE : string := "2".
Definition MULTIPLE : string := "n".
End NodeSelectionMode.

Module ExplorationKey.
Definition AUTO_VIS : string := "AutoVis".
Definition HYPOTHESIS_TEST : string := "HypothesisTest".
Definition WHAT_IF : string := "WhatIf".
Definition CROSS_FILTER : string := "CrossFilter".
Definition CAUSAL_INSIGHT : string := "CausalInsight".
Definition GRAPHIC_WALKER : string := "GraphicWalker".
Definition PREDICT : string := "predict".
End ExplorationKey.

Import NodeSelectionMode ExplorationKey.

Inductive LayoutMethod := FORCE | CIRCULAR | RADIAL | GRID.

(** ** Entities, renderers, listeners *)

(** [IFieldMeta]: the store reads [fid] only; [name] stands for the rest of
    the record, so that two entities can share an identifier. *)
Record IFieldMeta := { fid : string; name : string }.

(** The value of [onRenderNode] is a closure.  The one installed by the
    constructor computes a stroke colour from [node.features.entropy] in
    floating point; closures handed to [setNodeRenderer] are told apart by
    a handle. *)
Inductive NodeRenderer :=
| defaultRenderNode
| customRenderNode (handle : nat).

(** Callbacks are compared by reference in the source; a handle stands for
    the reference. *)
Definition Callback := nat.

Inductive EventName := nodeClick | nodeDoubleClick.

Record Listeners := {
  on_nodeClick : list Callback;
  on_nodeDoubleClick : list Callback;
}.

(** ** Reactive bindings created by the constructor *)

(** Members of the [mobxReactions] array, in array order. *)
Inductive MobxReaction := OnMergedPag | OnExplorationKey | OnSelectionMode.

(** Members of the [rxReactions] array. *)
Inductive RxSubscription := OnSelectedFidArr.

Global Instance MobxReaction_eq_dec : EqDecision MobxReaction.
Proof. solve_decision. Defined.

Global Instance RxSubscription_eq_dec : EqDecision RxSubscription.
Proof. solve_decision. Defined.

Global Instance EventName_eq_dec : EqDecision EventName.
Proof. solve_decision. Defined.

Definition mobxReactions : list MobxReaction :=
  [OnMergedPag; OnExplorationKey; OnSelectionMode].

Definition rxReactions : list RxSubscription := [OnSelectedFidArr].

(** ** The store *)

Record CausalViewStore := {
  explorationKey : string;
  graphNodeSelectionMode : string;
  _selectedNodes : list IFieldMeta;
  layoutMethod : LayoutMethod;
  onRenderNode : option NodeRenderer;
  listeners : Listeners;
  (** the value [withLatestFrom] holds for [fields$]; [None] until
      [fields$] has emitted *)
  fields_latest : option (list IFieldMeta);
  (** reactions not yet disposed, subscriptions not yet unsubscribed *)
  liveReactions : list MobxReaction;
  liveSubscriptions : list RxSubscription;
  (** identifiers reported through [console.warn], oldest first *)
  console_warn : list string;
}.

Definition selectedFieldGroup (st : CausalViewStore) : list IFieldMeta :=
  _selectedNodes st.

Definition selectedField (st : CausalViewStore) : option IFieldMeta :=
  head (_selectedNodes st).

(** Field updates. *)
Definition with_explorationKey (k : string) (st : CausalViewStore) :=
  {| explorationKey := k;
     graphNodeSelectionMode := graphNodeSelectionMode st;
     _selectedNodes := _selectedNodes st;
     layoutMethod := layoutMethod st;
     onRenderNode := onRenderNode st;
     listeners := listeners st;
     fields_latest := fields_latest st;
     liveReactions := liveReactions st;
     liveSubscriptions := liveSubscriptions st;
     console_warn := console_warn st |}.

Definition with_graphNodeSelectionMode (m : string) (st : CausalViewStore) :=
  {| explorationKey := explorationKey st;
     graphNodeSelectionMode := m;
     _selectedNodes := _selectedNodes st;
     layoutMethod := layoutMethod st;
     onRenderNode := onRenderNode st;
     listeners := listeners st;
     fields_latest := fields_latest st;
     liveReactions := liveReactions st;
     liveSubscriptions := liveSubscriptions st;
     console_warn := console_warn st |}.

Definition with_selectedNodes (nodes : list IFieldMeta) (warned : list string)
    (st : CausalViewStore) :=
  {| explorationKey := explorationKey st;
     graphNodeSelectionMode := graphNodeSelectionMode st;
     _selectedNodes := nodes;
     layoutMethod := layoutMethod st;
     onRenderNode := onRenderNode st;
     listeners := listeners st;
     fields_latest := fields_latest st;
     liveReactions := liveReactions st;
     liveSubscriptions := liveSubscriptions st;
     console_warn := console_warn st ++ warned |}.

Definition with_layoutMethod (l : LayoutMethod) (st : CausalViewStore) :=
  {| explorationKey := explorationKey st;
     graphNodeSelectionMode := graphNodeSelectionMode st;
     _selectedNodes := _selectedNodes st;
     layoutMethod := l;
     onRenderNode := onRenderNode st;
     listeners := listeners st;
     fields_latest := fields_latest st;
     liveReactions := liveReactions st;
     liveSubscriptions := liveSubscriptions st;
     console_warn := console_warn st |}.

Definition with_onRenderNode (r : option NodeRenderer) (st : CausalViewStore) :=
  {| explorationKey := explorationKey st;
     graphNodeSelectionMode := graphNodeSelectionMode st;
     _selectedNodes := _selectedNodes st;
     layoutMethod := layoutMethod st;
     onRenderNode := r;
     listeners := listeners st;
     fields_latest := fields_latest st;
     liveReactions := liveReactions st;
     liveSubscriptions := liveSubscriptions st;
     console_warn := console_warn st |}.

Definition with_listeners (ls : Listeners) (st : CausalViewStore) :=
  {| explorationKey := explorationKey st;
     graphNodeSelectionMode := graphNodeSelectionMode st;
     _selectedNodes := _selectedNodes st;
     layoutMethod := layoutMethod st;
     onRenderNode := onRenderNode st;
     listeners := ls;
     fields_latest := fields_latest st;
     liveReactions := liveReactions st;
     liveSubscriptions := liveSubscriptions st;
     console_warn := console_warn st |}.

Definition with_fields_latest (fs : option (list IFieldMeta))
    (st : CausalViewStore) :=
  {| explorationKey := explorationKey st;
     graphNodeSelectionMode := graphNodeSelectionMode st;
     _selectedNodes := _selectedNodes st;
     layoutMethod := layoutMethod st;
     onRenderNode := onRenderNode st;
     listeners := listeners st;
     fields_latest := fs;
     liveReactions := liveReactions st;
     liveSubscriptions := liveSubscriptions st;
     console_warn := console_warn st |}.

Definition with_liveReactions (rs : list MobxReaction) (st : CausalViewStore) :=
  {| explorationKey := explorationKey st;
     graphNodeSelectionMode := graphNodeSelectionMode st;
     _selectedNodes := _selectedNodes st;
     layoutMethod := layoutMethod st;
     onRenderNode := onRenderNode st;
     listeners := listeners st;
     fields_latest := fields_latest st;
     liveReactions := rs;
     liveSubscriptions := liveSubscriptions st;
     console_warn := console_warn st |}.

Definition with_liveSubscriptions (ss : list RxSubscription)
    (st : CausalViewStore) :=
  {| explorationKey := explorationKey st;
     graphNodeSelectionMode := graphNodeSelectionMode st;
     _selectedNodes := _selectedNodes st;
     layoutMethod := layoutMethod st;
     onRenderNode := onRenderNode st;
     listeners := listeners st;
     fields_latest := fields_latest st;
     liveReactions := liveReactions st;
     liveSubscriptions := ss;
     console_warn := console_warn st |}.

(** What a public method does: the value it returns ([None] is
    [undefined]), what it pushed into [selectedFidArr$], and the store it
    leaves. *)
Record Outcome := {
  returned : option bool;
  written : list (list string);
  after : CausalViewStore;
}.

(** ** The resolving pipeline: [selectedFidArr$.pipe(withLatestFrom(fields$))] *)

(** [fields.find(which => which.fid === fid)] *)
Definition findField (x : string) (fields : list IFieldMeta) : option IFieldMeta :=
  snd <$> list_find (λ which, fid which = x) fields.

(** The callback of [fidArr.reduce]: the accumulator is the array of nodes
    found so far, paired with the identifiers warned about. *)
Definition resolveStep (fields : list IFieldMeta)
    (acc : list IFieldMeta * list string) (x : string)
    : list IFieldMeta * list string :=
  match findField x fields with
  | Some f => (acc.1 ++ [f], acc.2)
  | None => (acc.1, acc.2 ++ [x])
  end.

Definition resolveSelection (fidArr : list string) (fields : list IFieldMeta)
    : list IFieldMeta * list string :=
  foldl (resolveStep fields) ([], []) fidArr.

(** rxjs [withLatestFrom]: a source value is paired with the latest value
    of the other stream, and is dropped when there is none yet. *)
Definition withLatestFrom {A B : Type} (a : A) (latest : option B)
    : option (A * B) :=
  match latest with
  | Some b => Some (a, b)
  | None => None
  end.

(** What one emission of [selectedFidArr$] makes the subscriber compute;
    [None] when nothing reaches the subscriber. *)
Definition resolution (fidArr : list string)
    (latest : option (list IFieldMeta))
    : option (list IFieldMeta * list string) :=
  match withLatestFrom fidArr latest with
  | Some (ids, fields) => Some (resolveSelection ids fields)
  | None => None
  end.

(** [this.selectedFidArr$.next(fidArr)], seen from the store. *)
Definition selectedFidArr_next (fidArr : list string) (st : CausalViewStore)
    : CausalViewStore :=
  if decide (OnSelectedFidArr ∈ liveSubscriptions st) then
    match resolution fidArr (fields_latest st) with
    | Some (nodes, warned) => with_selectedNodes nodes warned st
    | None => st
    end
  else st.

(** A method body that pushes [fidArr] and returns [r]. *)
Definition push (fidArr : list string) (r : option bool) (st : CausalViewStore)
    : Outcome :=
  {| returned := r; written := [fidArr]; after := selectedFidArr_next fidArr st |}.

(** A method body that pushes nothing. *)
Definition quiet (r : option bool) (st : CausalViewStore) : Outcome :=
  {| returned := r; written := []; after := st |}.

(** ** The mobx reactions *)

(** The [switch] of the reaction on [explorationKey]. *)
Definition selectionModeOf (key : string) : string :=
  if decide (key = CAUSAL_INSIGHT ∨ key = PREDICT) then SINGLE
  else if decide (key = AUTO_VIS ∨ key = CROSS_FILTER) then MULTIPLE
  else if decide (key = HYPOTHESIS_TEST) then DOUBLE
  else NONE.

(** The effect of the reaction on [graphNodeSelectionMode].
    [slice(length - 1)] keeps the last element; on the empty array the
    start index -1 is clamped to 0, which the truncated subtraction on
    [nat] gives as well. *)
Definition onSelectionModeChange (st : CausalViewStore) : CausalViewStore :=
  let m := graphNodeSelectionMode st in
  if decide (m = SINGLE ∨ m = DOUBLE) then
    with_selectedNodes
      (drop (length (_selectedNodes st) - 1) (_selectedNodes st)) [] st
  else if decide (m = MULTIPLE) then st
  else with_selectedNodes [] [] st.

(** [this.graphNodeSelectionMode = m], followed by the reaction when the
    value is a new one. *)
Definition assign_graphNodeSelectionMode (m : string) (st : CausalViewStore)
    : CausalViewStore :=
  let st' := with_graphNodeSelectionMode m st in
  if decide (m ≠ graphNodeSelectionMode st ∧ OnSelectionMode ∈ liveReactions st)
  then onSelectionModeChange st'
  else st'.

(** The effect of the reaction on [explorationKey]. *)
Definition onExplorationKeyChange (st : CausalViewStore) : CausalViewStore :=
  assign_graphNodeSelectionMode (selectionModeOf (explorationKey st)) st.

(** [this.explorationKey = k], followed by the reaction when the value is a
    new one. *)
Definition assign_explorationKey (k : string) (st : CausalViewStore)
    : CausalViewStore :=
  let st' := with_explorationKey k st in
  if decide (k ≠ explorationKey st ∧ OnExplorationKey ∈ liveReactions st)
  then onExplorationKeyChange st'
  else st'.

(** The reaction on [causalStore.model.mergedPag]. *)
Definition onMergedPagChange (st : CausalViewStore) : Outcome :=
  if decide (OnMergedPag ∈ liveReactions st) then push [] None st
  else quiet None st.

(** [fields$] emits a snapshot: [withLatestFrom] keeps it. *)
Definition onFieldsChange (fields : list IFieldMeta) (st : CausalViewStore)
    : CausalViewStore :=
  if decide (OnSelectedFidArr ∈ liveSubscriptions st)
  then with_fields_latest (Some fields) st
  else st.

(** ** The constructor *)

(** [snapshot] is what [fields$] delivers on subscription: [Some fields]
    when [toStream] fires at once, [None] when it waits for a change. *)
Definition new_CausalViewStore (snapshot : option (list IFieldMeta))
    : CausalViewStore :=
  {| explorationKey := AUTO_VIS;
     graphNodeSelectionMode := MULTIPLE;
     _selectedNodes := [];
     layoutMethod := FORCE;
     onRenderNode := Some defaultRenderNode;
     listeners := {| on_nodeClick := []; on_nodeDoubleClick := [] |};
     fields_latest := snapshot;
     liveReactions := mobxReactions;
     liveSubscriptions := rxReactions;
     console_warn := [] |}.

(** ** Public methods *)

Definition setLayout (layout : LayoutMethod) (st : CausalViewStore) : CausalViewStore :=
  with_layoutMethod layout st.

Definition setNodeRenderer (handleRender : option NodeRenderer)
    (st : CausalViewStore) : CausalViewStore :=
  with_onRenderNode handleRender st.

Definition listenersOf (eventName : EventName) (ls : Listeners) : list Callback :=
  match eventName with
  | nodeClick => on_nodeClick ls
  | nodeDoubleClick => on_nodeDoubleClick ls
  end.

Definition setListenersOf (eventName : EventName) (cbs : list Callback)
    (ls : Listeners) : Listeners :=
  match eventName with
  | nodeClick =>
      {| on_nodeClick := cbs; on_nodeDoubleClick := on_nodeDoubleClick ls |}
  | nodeDoubleClick =>
      {| on_nodeClick := on_nodeClick ls; on_nodeDoubleClick := cbs |}
  end.

Definition addEventListener (eventName : EventName) (callback : Callback)
    (st : CausalViewStore) : CausalViewStore :=
  with_listeners
    (setListenersOf eventName
       (listenersOf eventName (listeners st) ++ [callback]) (listeners st)) st.

Definition removeEventListener (eventName : EventName) (callback : Callback)
    (st : CausalViewStore) : CausalViewStore :=
  with_listeners
    (setListenersOf eventName
       (filter (λ cb, cb ≠ callback) (listenersOf eventName (listeners st)))
       (listeners st)) st.

(** [fireEvent] calls the callbacks of [eventName] in order: the result is
    the sequence of calls made. *)
Definition fireEvent (eventName : EventName) (node : IFieldMeta)
    (st : CausalViewStore) : list (Callback * IFieldMeta) :=
  (λ cb, (cb, node)) <$> listenersOf eventName (listeners st).

Definition setExplorationKey (k : string) (st : CausalViewStore) : Outcome :=
  quiet None (assign_explorationKey k st).

Definition setNodeSelectionMode (selectionMode : string) (st : CausalViewStore)
    : Outcome :=
  quiet None (assign_graphNodeSelectionMode selectionMode st).

(** [this.selectedField?.fid === fid] *)
Definition selectedField_is (x : string) (st : CausalViewStore) : bool :=
  match selectedField st with
  | Some f => bool_decide (fid f = x)
  | None => false
  end.

(** The [SINGLE] case, which [toggleNodeSelected] and [selectNode] share
    word for word. *)
Definition toggleSingle (x : string) (st : CausalViewStore) : Outcome :=
  if selectedField_is x st then push [] (Some false) st
  else push [x] (Some true) st.

(** The [DOUBLE] case of [toggleNodeSelected].  The tests
    [length === 0] and [length !== 1] and the access [selectedFieldGroup[0]]
    are the three shapes of the group. *)
Definition toggleDouble (x : string) (st : CausalViewStore) : Outcome :=
  let group := selectedFieldGroup st in
  if decide (Exists (λ f, fid f = x) group) then
    push (fid <$> filter (λ f, fid f ≠ x) group) (Some false) st
  else
    match group with
    | [] => push [x] (Some true) st
    | [f0] => push [fid f0; x] (Some false) st
    | _ :: _ :: _ => quiet (Some false) st
    end.

(** [draft.findIndex(f => f === fid)]; [None] is -1. *)
Definition findIndex (x : string) (draft : list string) : option nat :=
  fst <$> list_find (λ f, f = x) draft.

(** The recipe handed to [produce] by [toggleNodeSelected]. *)
Definition toggleDraft (x : string) (draft : list string) : list string :=
  match findIndex x draft with
  | Some matchedIndex => delete matchedIndex draft
  | None => draft ++ [x]
  end.

(** The recipe handed to [produce] by [selectNode]. *)
Definition selectDraft (x : string) (draft : list string) : list string :=
  match findIndex x draft with
  | Some _ => draft
  | None => draft ++ [x]
  end.

Definition toggleNodeSelected (x : string) (st : CausalViewStore) : Outcome :=
  let m := graphNodeSelectionMode st in
  if decide (m = SINGLE) then toggleSingle x st
  else if decide (m = DOUBLE) then toggleDouble x st
  else if decide (m = MULTIPLE) then
    push (toggleDraft x (fid <$> selectedFieldGroup st)) None st
  else quiet None st.

Definition selectNode (x : string) (st : CausalViewStore) : Outcome :=
  let m := graphNodeSelectionMode st in
  if decide (m = SINGLE) then toggleSingle x st
  else if decide (m = MULTIPLE) then
    push (selectDraft x (fid <$> selectedFieldGroup st)) None st
  else quiet None st.

Definition clearSelected (st : CausalViewStore) : Outcome :=
  push [] None st.

(** ** Teardown *)

Inductive TeardownStep :=
| Disposed (r : MobxReaction)
| Unsubscribed (s : RxSubscription)
| ListenersReset (key : EventName).

(** [Object.keys(this.listeners)] *)
Definition listenerKeys : list EventName := [nodeClick; nodeDoubleClick].

Definition dispose (r : MobxReaction) (st : CausalViewStore) : CausalViewStore :=
  with_liveReactions (filter (λ r', r' ≠ r) (liveReactions st)) st.

Definition unsubscribe (s : RxSubscription) (st : CausalViewStore)
    : CausalViewStore :=
  with_liveSubscriptions (filter (λ s', s' ≠ s) (liveSubscriptions st)) st.

Definition resetListeners (key : EventName) (st : CausalViewStore)
    : CausalViewStore :=
  with_listeners (setListenersOf key [] (listeners st)) st.

Definition teardown (t : TeardownStep) (st : CausalViewStore) : CausalViewStore :=
  match t with
  | Disposed r => dispose r st
  | Unsubscribed s => unsubscribe s st
  | ListenersReset key => resetListeners key st
  end.

(** [xs.forEach(x => f(x))], keeping the sequence of steps made. *)
Definition forEach {A : Type} (f : A → TeardownStep) (xs : list A)
    (acc : list TeardownStep * CausalViewStore)
    : list TeardownStep * CausalViewStore :=
  foldl (λ acc x, (acc.1 ++ [f x], teardown (f x) acc.2)) acc xs.

(** [destroy()]: the steps taken, in order, and the store left.  The two
    arrays are the ones the constructor built, whatever is still live. *)
Definition destroy (st : CausalViewStore) : list TeardownStep * CausalViewStore :=
  let acc1 := forEach Disposed mobxReactions ([], st) in
  let acc2 := forEach Unsubscribed rxReactions acc1 in
  forEach ListenersReset listenerKeys acc2.

(** ** Runs of the store *)

(** Calls of the public selection methods. *)
Inductive Command :=
| SetExplorationKey (k : string)
| SetNodeSelectionMode (selectionMode : string)
| ToggleNodeSelected (x : string)
| SelectNode (x : string)
| ClearSelected.

(** What reaches the store: a call, a listener registration, or a change
    pushed by the upstream store. *)
Inductive Input :=
| Call (c : Command)
| AddEventListener (eventName : EventName) (callback : Callback)
| RemoveEventListener (eventName : EventName) (callback : Callback)
| FieldsChanged (fields : list IFieldMeta)
| MergedPagChanged.

Definition call (c : Command) (st : CausalViewStore) : Outcome :=
  match c with
  | SetExplorationKey k => setExplorationKey k st
  | SetNodeSelectionMode m => setNodeSelectionMode m st
  | ToggleNodeSelected x => toggleNodeSelected x st
  | SelectNode x => selectNode x st
  | ClearSelected => clearSelected st
  end.

Definition step (i : Input) (st : CausalViewStore) : Outcome :=
  match i with
  | Call c => call c st
  | AddEventListener e cb => quiet None (addEventListener e cb st)
  | RemoveEventListener e cb => quiet None (removeEventListener e cb st)
  | FieldsChanged fields => quiet None (onFieldsChange fields st)
  | MergedPagChanged => onMergedPagChange st
  end.

Definition run (inputs : list Input) (st : CausalViewStore) : CausalViewStore :=
  foldl (λ s i, after (step i s)) st inputs.

(** ** Cardinality caps *)

(** The cap of a mode; [None] is unbounded.  A mode outside the enum gets
    the cap of [NONE], as the [default] branches treat it. *)
Definition cardinalityCap (m : string) : option nat :=
  if decide (m = MULTIPLE) then None
  else if decide (m = DOUBLE) then Some 2
  else if decide (m = SINGLE) then Some 1
  else Some 0.

Definition withinCap (m : string) (n : nat) : Prop :=
  match cardinalityCap m with
  | Some cap => n ≤ cap
  | None => True
  end.

Global Instance withinCap_dec m n : Decision (withinCap m n).
Proof. unfold withinCap. destruct (cardinalityCap m); apply _. Defined.

(** ** Sessions *)

(** A session: the store built on [snapshot] and driven by [inputs]. *)
Definition session (snapshot : option (list IFieldMeta)) (inputs : list Input)
    : CausalViewStore :=
  run inputs (new_CausalViewStore snapshot).

(** ** Resolution as the specification words it *)

(** The entity of the snapshot that matches an identifier. *)
Definition matching (x : string) (fields : list IFieldMeta) : option IFieldMeta :=
  head (filter (λ e, fid e = x) fields).

(** The matching entities, in the order of the identifiers; identifiers
    without one are left out. *)
Definition resolved_spec (ids : list string) (fields : list IFieldMeta)
    : list IFieldMeta :=
  omap (λ x, matching x fields) ids.

(** The identifiers that no entity of the snapshot carries. *)
Definition unresolved_spec (ids : list string) (fields : list IFieldMeta)
    : list string :=
  filter (λ x, x ∉ fid <$> fields) ids.

(** ** Sessions without a method call *)

Definition isCall (i : Input) : bool :=
  match i with
  | Call _ => true
  | _ => false
  end.

(** The store as the constructor leaves it, as far as a caller sees. *)
Record Fresh (st : CausalViewStore) : Prop := {
  fresh_key : explorationKey st = AUTO_VIS;
  fresh_mode : graphNodeSelectionMode st = MULTIPLE;
  fresh_nodes : _selectedNodes st = [];
  fresh_layout : layoutMethod st = FORCE;
  fresh_renderer : onRenderNode st = Some defaultRenderNode;
}.

(** ** What holds all along a session *)

(** The selection has no two entities with one identifier and respects the
    cap of the mode; nothing is selected before the first snapshot; every
    binding of the constructor is live. *)
Record Inv (st : CausalViewStore) : Prop := {
  inv_NoDup : NoDup (fid <$> _selectedNodes st);
  inv_cap : withinCap (graphNodeSelectionMode st) (length (_selectedNodes st));
  inv_snapshot : fields_latest st = None → _selectedNodes st = [];
  inv_reactions : liveReactions st = mobxReactions;
  inv_subscriptions : liveSubscriptions st = rxReactions;
}.

(** ** Layouts and exploration keys *)

(** The array [ExplorationKeys]. *)
Definition ExplorationKeys : list string :=
  [AUTO_VIS; CROSS_FILTER; CAUSAL_INSIGHT; GRAPHIC_WALKER; PREDICT].

(** The array [LayoutMethods]. *)
Definition LayoutMethods : list LayoutMethod := [FORCE; CIRCULAR; RADIAL; GRID].

Global Instance LayoutMethod_eq_dec : EqDecision LayoutMethod.
Proof. solve_decision. Defined.

(** What [getLayoutConfig] returns; a member an object does not have is
    [None]. *)
Record LayoutConfig := {
  layout_type : string;
  speed : nat;
  gravity : option nat;
  startRadius : option nat;
  endRadius : option nat;
  linkDistance : option nat;
}.

Definition getLayoutConfig (layout : LayoutMethod) : LayoutConfig :=
  match layout with
  | FORCE =>
      {| layout_type := "fruchterman"; speed := 10; gravity := Some 5;
         startRadius := None; endRadius := None; linkDistance := None |}
  | CIRCULAR =>
      {| layout_type := "circular"; speed := 10; gravity := None;
         startRadius := Some 120; endRadius := Some 120; linkDistance := None |}
  | RADIAL =>
      {| layout_type := "radial"; speed := 10; gravity := None;
         startRadius := None; endRadius := None; linkDistance := Some 50 |}
  | GRID =>
      {| layout_type := "grid"; speed := 10; gravity := None;
         startRadius := None; endRadius := None; linkDistance := None |}
  end.

(** ** Thresholds and the prediction cache *)

(** The fields [thresholds] and [predictCache] of the store, which the
    selection machinery does not read.  [number] is the type of the
    threshold values, [R] the type of a cached record. *)
Record Thresholds (number : Type) := {
  confidence : number;
  weight : number;
  local : number;
}.
Arguments confidence {number} _.
Arguments weight {number} _.
Arguments local {number} _.

Inductive ThresholdKey := key_confidence | key_weight | key_local.

Global Instance ThresholdKey_eq_dec : EqDecision ThresholdKey.
Proof. solve_decision. Defined.

(** [thresholds[key]] *)
Definition getThreshold {number : Type} (key : ThresholdKey)
    (thresholds : Thresholds number) : number :=
  match key with
  | key_confidence => confidence thresholds
  | key_weight => weight thresholds
  | key_local => local thresholds
  end.

(** [produce(this.thresholds, draft => { draft[key] = value })] *)
Definition setThreshold {number : Type} (key : ThresholdKey) (value : number)
    (thresholds : Thresholds number) : Thresholds number :=
  match key with
  | key_confidence =>
      {| confidence := value; weight := weight thresholds;
         local := local thresholds |}
  | key_weight =>
      {| confidence := confidence thresholds; weight := value;
         local := local thresholds |}
  | key_local =>
      {| confidence := confidence thresholds; weight := weight thresholds;
         local := value |}
  end.

Definition pushPredictResult {R : Type} (result : R) (predictCache : list R)
    : list R :=
  predictCache ++ [result].

Definition clearPredictResults {R : Type} (predictCache : list R) : list R := [].

Inductive PredictCacheOp (R : Type) :=
| PushPredictResult (result : R)
| ClearPredictResults.
Arguments PushPredictResult {R} _.
Arguments ClearPredictResults {R}.

Definition runPredictCache {R : Type} (ops : list (PredictCacheOp R))
    (predictCache : list R) : list R :=
  foldl (λ cache op,
           match op with
           | PushPredictResult result => pushPredictResult result cache
           | ClearPredictResults => clearPredictResults cache
           end) predictCache ops.

(** ** Batch update of functional dependencies ([FDBatch]) *)

Module BatchUpdateMode.
Definition OVERWRITE_ONLY : string := "overwrite_only".
Definition FILL_ONLY : string := "fill_only".
Definition FULLY_REPLACE : string := "fully_replace".
End BatchUpdateMode.

Import BatchUpdateMode.

(** A parameter of a functional dependency: [FDBatch] reads its [fid];
    [prm_rest] stands for the other members. *)
Record IFunctionalDepParam := { prm_fid : string; prm_rest : string }.

(** [IFunctionalDep]: [dep_fid] is the member [fid]. *)
Record IFunctionalDep := {
  dep_fid : string;
  params : list IFunctionalDepParam;
}.

(** [deps.findIndex(which => which.fid === dep.fid)]; [None] is -1. *)
Definition findDepIndex (dep : IFunctionalDep) (deps : list IFunctionalDep)
    : option nat :=
  fst <$> list_find (λ which, dep_fid which = dep_fid dep) deps.

(** The reducer of [OVERWRITE_ONLY]: [splice(overloadIdx, 1, dep)] or
    [concat([dep])]. *)
Definition overwriteStep (deps : list IFunctionalDep) (dep : IFunctionalDep)
    : list IFunctionalDep :=
  match findDepIndex dep deps with
  | Some overloadIdx => <[overloadIdx := dep]> deps
  | None => deps ++ [dep]
  end.

(** The loop over [dep.params] of [FILL_ONLY], on the parameters of the
    draft. *)
Definition fillParams (overload_params dep_params : list IFunctionalDepParam)
    : list IFunctionalDepParam :=
  foldl (λ ps prm,
           if decide (Exists (λ p, prm_fid p = prm_fid prm) ps) then ps
           else ps ++ [prm])
        overload_params dep_params.

(** The reducer of [FILL_ONLY]. *)
Definition fillStep (deps : list IFunctionalDep) (dep : IFunctionalDep)
    : list IFunctionalDep :=
  match findDepIndex dep deps with
  | Some overloadIdx =>
      alter (λ overload,
               {| dep_fid := dep_fid overload;
                  params := fillParams (params overload) (params dep) |})
            overloadIdx deps
  | None => deps
  end.

(** The memo [submittable]; [preview] is [None] for [null]. *)
Definition submittable (preview : option (list IFunctionalDep)) (mode : string)
    (functionalDependencies : list IFunctionalDep) : list IFunctionalDep :=
  match preview with
  | Some preview =>
      if decide (mode = OVERWRITE_ONLY) then
        foldl overwriteStep functionalDependencies preview
      else if decide (mode = FILL_ONLY) then
        foldl fillStep functionalDependencies preview
      else if decide (mode = FULLY_REPLACE) then preview
      else functionalDependencies
  | None => functionalDependencies
  end.

(** The state of the [FDBatch] component that the detection request
    touches.  A promise is told from the others by a number. *)
Record BatchState := {
  batch_preview : option (list IFunctionalDep);
  displayPreview : bool;
  pendingRef : option nat;
}.

(** [generateFDFromAutoDetection], up to the request: [p] is the promise
    it creates. *)
Definition generateFDFromAutoDetection (p : nat) (s : BatchState) : BatchState :=
  {| batch_preview := batch_preview s;
     displayPreview := true;
     pendingRef := Some p |}.

(** The callback of [then] (on [Some res], the promise resolved with
    [res]) or of [catch] (on [None], it rejected) for the promise [p]. *)
Definition onSettled (p : nat) (outcome : option (list IFunctionalDep))
    (s : BatchState) : BatchState :=
  {| batch_preview :=
       if decide (pendingRef s = Some p) then
         match outcome with
         | Some res => Some res
         | None => Some []
         end
       else batch_preview s;
     displayPreview := displayPreview s;
     pendingRef := pendingRef s |}.

(** The callback of [finally].  It is chained behind [then] and [catch],
    so it runs in a later microtask than [onSettled] for the same promise,
    and callbacks of other promises can run in between. *)
Definition onFinally (s : BatchState) : BatchState :=
  {| batch_preview := batch_preview s;
     displayPreview := displayPreview s;
     pendingRef := None |}.

(** ** The entity stream *)

(** Modelled from the spec: [toStream] (utils/mobx-utils) is what the
    constructor calls as [toStream(() => causalStore.fields, true)].  With
    the second argument [true] the stream delivers the current list of
    entities on subscription, so that the pipeline holds a snapshot from
    the start and never waits for one; as long as the upstream store has
    no entity, that list is empty. *)
Definition toStream_fields (fields : list IFieldMeta)
    : option (list IFieldMeta) :=
  Some fields.

(** ** Calls that share a mobx action *)

(** Every method of the store is an action.  A call made while another
    action is running (inside [runInAction], or from a listener that
    [fireEvent] calls) joins it: assignments and pushes take effect at
    once, and the reactions they make stale are scheduled and run when the
    outermost action ends. *)
Record InAction := {
  store : CausalViewStore;
  pendingReactions : list MobxReaction;
}.

(** [Reaction.schedule_]: a disposed reaction observes nothing, and a
    reaction already scheduled is not scheduled again. *)
Definition schedule_ (r : MobxReaction) (a : InAction) : InAction :=
  if decide (r ∈ liveReactions (store a) ∧ r ∉ pendingReactions a)
  then {| store := store a; pendingReactions := pendingReactions a ++ [r] |}
  else a.

(** [this.explorationKey = k] inside an action. *)
Definition set_explorationKey (k : string) (a : InAction) : InAction :=
  let a' := {| store := with_explorationKey k (store a);
               pendingReactions := pendingReactions a |} in
  if decide (k ≠ explorationKey (store a)) then schedule_ OnExplorationKey a'
  else a'.

(** [this.graphNodeSelectionMode = m] inside an action. *)
Definition set_graphNodeSelectionMode (m : string) (a : InAction) : InAction :=
  let a' := {| store := with_graphNodeSelectionMode m (store a);
               pendingReactions := pendingReactions a |} in
  if decide (m ≠ graphNodeSelectionMode (store a))
  then schedule_ OnSelectionMode a'
  else a'.

(** A write as an observer of [selectedFidArr$] sees it: the mode at the
    time, and the sequence. *)
Definition Write : Type := string * list string.

(** The body of a method that only pushes, run inside an action.  The
    subscriber of [selectedFidArr$] runs at once, as it does outside an
    action. *)
Definition pushInAction (o : Outcome) (a : InAction)
    : option bool * list Write * InAction :=
  (returned o,
   (λ ids, (graphNodeSelectionMode (store a), ids)) <$> written o,
   {| store := after o; pendingReactions := pendingReactions a |}).

(** A method called inside an action: what it returns, what it writes,
    and the action afterwards. *)
Definition callInAction (c : Command) (a : InAction)
    : option bool * list Write * InAction :=
  match c with
  | SetExplorationKey k => (None, [], set_explorationKey k a)
  | SetNodeSelectionMode m => (None, [], set_graphNodeSelectionMode m a)
  | ToggleNodeSelected x => pushInAction (toggleNodeSelected x (store a)) a
  | SelectNode x => pushInAction (selectNode x (store a)) a
  | ClearSelected => pushInAction (clearSelected (store a)) a
  end.

(** The value each [reaction] keeps of its tracked expression from the
    last time it ran. *)
Record Seen := {
  seen_explorationKey : string;
  seen_graphNodeSelectionMode : string;
}.

(** [Reaction.runReaction_]: the tracked expression is evaluated again
    and the effect runs when its value is not the one kept.  The effect of
    the reaction on the key assigns the mode, which can schedule the
    reaction on the mode.  No method changes [mergedPag]. *)
Definition runReaction_ (r : MobxReaction) (sa : Seen * InAction)
    : Seen * InAction :=
  let '(seen, a) := sa in
  match r with
  | OnMergedPag => (seen, a)
  | OnExplorationKey =>
      let k := explorationKey (store a) in
      if decide (k ≠ seen_explorationKey seen) then
        ({| seen_explorationKey := k;
            seen_graphNodeSelectionMode := seen_graphNodeSelectionMode seen |},
         set_graphNodeSelectionMode (selectionModeOf k) a)
      else (seen, a)
  | OnSelectionMode =>
      let m := graphNodeSelectionMode (store a) in
      if decide (m ≠ seen_graphNodeSelectionMode seen) then
        ({| seen_explorationKey := seen_explorationKey seen;
            seen_graphNodeSelectionMode := m |},
         {| store := onSelectionModeChange (store a);
            pendingReactions := pendingReactions a |})
      else (seen, a)
  end.

(** [runReactionsHelper]: the scheduled reactions are taken out and run in
    the order scheduled; what they schedule is run in the next round;
    mobx gives up after [MAX_REACTION_ITERATIONS] rounds and drops what
    is left. *)
Fixpoint runReactionsHelper (iterations : nat) (seen : Seen) (a : InAction)
    : InAction :=
  match pendingReactions a with
  | [] => a
  | remainingReactions =>
      match iterations with
      | 0 => {| store := store a; pendingReactions := [] |}
      | S iterations' =>
          let '(seen', a') :=
            foldl (λ sa r, runReaction_ r sa)
                  (seen, {| store := store a; pendingReactions := [] |})
                  remainingReactions in
          runReactionsHelper iterations' seen' a'
      end
  end.

Definition MAX_REACTION_ITERATIONS : nat := 100.

(** The commands [cs] called one after the other inside one action of
    their own, from the store [st], on which every reaction is up to
    date: the writes made, and the store once the action has ended and
    the reactions have run. *)
Definition inOneAction (cs : list Command) (st : CausalViewStore)
    : list Write * CausalViewStore :=
  let '(writes, a) :=
    foldl (λ wa c, let '(_, w, a') := callInAction c wa.2 in (wa.1 ++ w, a'))
          ([], {| store := st; pendingReactions := [] |}) cs in
  (writes,
   store (runReactionsHelper (MAX_REACTION_ITERATIONS - 1)
            {| seen_explorationKey := explorationKey st;
               seen_graphNodeSelectionMode := graphNodeSelectionMode st |}
            a)).

(** What happens to a store: an input as before (a call is then an
    action of its own), or several calls in one action. *)
Inductive Event :=
| Single (i : Input)
| Batch (cs : list Command).

Definition isSingle (e : Event) : bool :=
  match e with
  | Single _ => true
  | Batch _ => false
  end.

Definition writesOf (e : Event) (st : CausalViewStore) : list Write :=
  match e with
  | Single i => (λ ids, (graphNodeSelectionMode st, ids)) <$> written (step i st)
  | Batch cs => (inOneAction cs st).1
  end.

Definition happen (e : Event) (st : CausalViewStore) : CausalViewStore :=
  match e with
  | Single i => after (step i st)
  | Batch cs => (inOneAction cs st).2
  end.

Definition runEvents (events : list Event) (st : CausalViewStore)
    : CausalViewStore :=
  foldl (λ s e, happen e s) st events.

(** The store built on [snapshot] and driven by [events]. *)
Definition play (snapshot : option (list IFieldMeta)) (events : list Event)
    : CausalViewStore :=
  runEvents events (new_CausalViewStore snapshot).

(** ** Entities of the examples *)

Definition field_a : IFieldMeta := {| fid := "a"; name := "age" |}.
Definition field_b : IFieldMeta := {| fid := "b"; name := "bmi" |}.
Definition field_c : IFieldMeta := {| fid := "c"; name := "cost" |}.
Definition field_d : IFieldMeta := {| fid := "d"; name := "dose" |}.

(** * Properties *)

Ltac cap_cases :=
  unfold withinCap, cardinalityCap in *;
  repeat case_decide; unfold NONE, SINGLE, DOUBLE, MULTIPLE in *;
  simpl in *; try congruence; try lia; try done.

(** ** Lists *)

Lemma drop_pred_length {A : Type} (l : list A) :
  drop (length l - 1) l = option_list (last l).
Proof.
  destruct l as [|a l] using rev_ind; [done|].
  rewrite length_app, last_snoc. simpl.
  replace (length l + 1 - 1) with (length l) by lia.
  by rewrite drop_app_length.
Qed.

(** ** Lookup in the snapshot *)

Lemma findField_matching x fields : findField x fields = matching x fields.
Proof.
  unfold findField, matching.
  induction fields as [|e fields IH]; [done|].
  simpl. rewrite filter_cons.
  destruct (decide (fid e = x)); [done|].
  rewrite <- IH. by destruct (list_find _ fields).
Qed.

Lemma matching_Some x fields f :
  matching x fields = Some f → fid f = x ∧ f ∈ fields.
Proof.
  unfold matching. intros H.
  apply head_Some_elem_of in H. by apply list_elem_of_filter in H.
Qed.

Lemma matching_None x fields :
  matching x fields = None ↔ x ∉ fid <$> fields.
Proof.
  unfold matching. rewrite head_None. split.
  - intros H [e [-> He]]%list_elem_of_fmap.
    assert (e ∈ filter (λ e', fid e' = fid e) fields) as Hin
      by by apply list_elem_of_filter.
    rewrite H in Hin. by apply not_elem_of_nil in Hin.
  - intros H. apply elem_of_nil_inv. intros e [He Hin]%list_elem_of_filter.
    apply H, list_elem_of_fmap. eauto.
Qed.

Lemma foldl_resolveStep fields ids acc :
  foldl (resolveStep fields) acc ids
  = (acc.1 ++ resolved_spec ids fields, acc.2 ++ unresolved_spec ids fields).
Proof.
  revert acc. induction ids as [|x ids IH]; intros [nodes warned]; simpl.
  - by rewrite !app_nil_r.
  - rewrite IH. unfold resolveStep, resolved_spec, unresolved_spec.
    rewrite findField_matching, filter_cons. simpl.
    destruct (matching x fields) as [f|] eqn:E; simpl.
    + apply matching_Some in E as [<- Hin].
      rewrite decide_False, <- app_assoc; [done|].
      intros H. apply H, list_elem_of_fmap. eauto.
    + apply matching_None in E.
      by rewrite decide_True, <- app_assoc.
Qed.

Lemma resolveSelection_eq ids fields :
  resolveSelection ids fields
  = (resolved_spec ids fields, unresolved_spec ids fields).
Proof. unfold resolveSelection. by rewrite foldl_resolveStep. Qed.

Lemma resolved_spec_fids ids fields :
  fid <$> resolved_spec ids fields = filter (λ x, x ∈ fid <$> fields) ids.
Proof.
  unfold resolved_spec. induction ids as [|x ids IH]; [done|].
  rewrite filter_cons. cbn [omap list_omap].
  destruct (matching x fields) as [f|] eqn:E.
  - apply matching_Some in E as [<- Hin].
    rewrite decide_True by (apply list_elem_of_fmap; eauto).
    rewrite fmap_cons. f_equal. apply IH.
  - apply matching_None in E. rewrite decide_False by done. apply IH.
Qed.

Lemma resolved_spec_NoDup ids fields :
  NoDup ids → NoDup (fid <$> resolved_spec ids fields).
Proof. rewrite resolved_spec_fids. apply NoDup_filter. Qed.

Lemma resolved_spec_length ids fields :
  length (resolved_spec ids fields) ≤ length ids.
Proof.
  rewrite <- (length_fmap fid), resolved_spec_fids. apply length_filter.
Qed.

(** ** What a push leaves unchanged *)

Lemma selectedFidArr_next_mode ids st :
  graphNodeSelectionMode (selectedFidArr_next ids st) = graphNodeSelectionMode st.
Proof.
  unfold selectedFidArr_next. case_decide; [|done].
  by destruct (resolution _ _) as [[? ?]|].
Qed.

Lemma selectedFidArr_next_key ids st :
  explorationKey (selectedFidArr_next ids st) = explorationKey st.
Proof.
  unfold selectedFidArr_next. case_decide; [|done].
  by destruct (resolution _ _) as [[? ?]|].
Qed.

(** With the subscription live and a snapshot at hand, a push installs the
    resolved nodes. *)
Lemma selectedFidArr_next_resolved ids fields st :
  OnSelectedFidArr ∈ liveSubscriptions st →
  fields_latest st = Some fields →
  _selectedNodes (selectedFidArr_next ids st) = resolved_spec ids fields
  ∧ fields_latest (selectedFidArr_next ids st) = Some fields
  ∧ liveSubscriptions (selectedFidArr_next ids st) = liveSubscriptions st.
Proof.
  intros Hlive Hf. unfold selectedFidArr_next, resolution.
  rewrite decide_True, Hf by done. simpl.
  by rewrite resolveSelection_eq.
Qed.

(** Without a snapshot a push changes nothing. *)
Lemma selectedFidArr_next_dropped ids st :
  fields_latest st = None → selectedFidArr_next ids st = st.
Proof.
  intros Hf. unfold selectedFidArr_next, resolution. rewrite Hf. simpl.
  by case_decide.
Qed.

(** ** The invariant of a session *)

Lemma withinCap_0 m : withinCap m 0.
Proof. cap_cases. Qed.

Lemma withinCap_le m n n' : n' ≤ n → withinCap m n → withinCap m n'.
Proof. intros Hle. unfold withinCap. destruct (cardinalityCap m); [lia|done]. Qed.

Lemma Inv_new snapshot : Inv (new_CausalViewStore snapshot).
Proof. split; simpl; try done; first [constructor | apply withinCap_0]. Qed.

Lemma Inv_next ids st :
  Inv st → NoDup ids →
  withinCap (graphNodeSelectionMode st) (length ids) →
  Inv (selectedFidArr_next ids st).
Proof.
  intros [Hnd Hcap Hsnap Hr Hs] Hids Hlen.
  destruct (fields_latest st) as [fields|] eqn:Hf.
  - destruct (selectedFidArr_next_resolved ids fields st) as (Hn & Hf' & Hs');
      [rewrite Hs; apply list_elem_of_here | done |].
    split.
    + rewrite Hn. by apply resolved_spec_NoDup.
    + rewrite Hn, selectedFidArr_next_mode.
      eapply withinCap_le; [apply resolved_spec_length | done].
    + rewrite Hf'. intros [=].
    + unfold selectedFidArr_next. case_decide; [|done].
      by destruct (resolution _ _) as [[? ?]|].
    + by rewrite Hs'.
  - rewrite selectedFidArr_next_dropped by done. split; auto.
Qed.

Lemma Inv_live_reaction r st : Inv st → r ∈ liveReactions st.
Proof.
  intros [_ _ _ -> _]. unfold mobxReactions.
  destruct r; rewrite !elem_of_cons; auto.
Qed.

Lemma Inv_live_subscription s st : Inv st → s ∈ liveSubscriptions st.
Proof. intros [_ _ _ _ ->]. destruct s. apply list_elem_of_here. Qed.

Lemma Inv_onSelectionModeChange m st :
  Inv st → Inv (onSelectionModeChange (with_graphNodeSelectionMode m st)).
Proof.
  intros [Hnd Hcap Hsnap Hr Hs]. unfold onSelectionModeChange. simpl.
  destruct (decide (m = SINGLE ∨ m = DOUBLE)) as [Hm|Hm].
  - split; simpl; try done.
    + rewrite fmap_drop. eapply sublist_NoDup; [done | apply sublist_drop].
    + rewrite length_drop.
      destruct Hm as [-> | ->]; unfold withinCap; simpl; lia.
    + intros Hf. by rewrite Hsnap.
  - destruct (decide (m = MULTIPLE)) as [->|Hm'].
    + by split.
    + split; simpl; try done; first [constructor | apply withinCap_0].
Qed.

Lemma Inv_assign_graphNodeSelectionMode m st :
  Inv st → Inv (assign_graphNodeSelectionMode m st).
Proof.
  intros HI. unfold assign_graphNodeSelectionMode.
  case_decide as Hc; [by apply Inv_onSelectionModeChange|].
  assert (m = graphNodeSelectionMode st) as ->.
  { destruct (decide (m = graphNodeSelectionMode st)); [done|].
    exfalso. apply Hc. split; [done|]. by apply Inv_live_reaction. }
  by destruct HI; split.
Qed.

Lemma Inv_assign_explorationKey k st :
  Inv st → Inv (assign_explorationKey k st).
Proof.
  intros HI. unfold assign_explorationKey, onExplorationKeyChange.
  assert (Inv (with_explorationKey k st)) by (by destruct HI; split).
  case_decide; [|done]. by apply Inv_assign_graphNodeSelectionMode.
Qed.

(** ** What the methods push *)

Lemma toggleDraft_NoDup x draft : NoDup draft → NoDup (toggleDraft x draft).
Proof.
  intros Hnd. unfold toggleDraft, findIndex.
  destruct (list_find _ draft) as [[i y]|] eqn:E; simpl.
  - eapply sublist_NoDup; [done | apply sublist_delete].
  - apply list_find_None in E. apply NoDup_app. split_and!; [done| |apply NoDup_singleton].
    intros y Hy ->%list_elem_of_singleton.
    rewrite Forall_forall in E. by apply (E x).
Qed.

Lemma selectDraft_NoDup x draft : NoDup draft → NoDup (selectDraft x draft).
Proof.
  intros Hnd. unfold selectDraft, findIndex.
  destruct (list_find _ draft) as [[i y]|] eqn:E; simpl; [done|].
  apply list_find_None in E. apply NoDup_app. split_and!; [done| |apply NoDup_singleton].
  intros y Hy ->%list_elem_of_singleton.
  rewrite Forall_forall in E. by apply (E x).
Qed.

Lemma toggleSingle_written x st ids :
  ids ∈ written (toggleSingle x st) → NoDup ids ∧ length ids ≤ 1.
Proof.
  unfold toggleSingle. destruct (selectedField_is x st); simpl;
    intros ->%list_elem_of_singleton; simpl; split; try lia;
    first [apply NoDup_nil_2 | apply NoDup_singleton].
Qed.

Lemma toggleDouble_written x st ids :
  NoDup (fid <$> _selectedNodes st) →
  length (_selectedNodes st) ≤ 2 →
  ids ∈ written (toggleDouble x st) → NoDup ids ∧ length ids ≤ 2.
Proof.
  intros Hnd Hlen. unfold toggleDouble, selectedFieldGroup.
  case_decide as Hx.
  - simpl. intros ->%list_elem_of_singleton. split.
    + eapply sublist_NoDup; [done|]. apply fmap_sublist, sublist_filter.
    + rewrite length_fmap. etrans; [apply length_filter | done].
  - destruct (_selectedNodes st) as [|f0 [|f1 group]]; simpl.
    + intros ->%list_elem_of_singleton. split; [apply NoDup_singleton | simpl; lia].
    + intros ->%list_elem_of_singleton. split; [|simpl; lia].
      apply NoDup_cons. split; [|apply NoDup_singleton].
      intros Heq%list_elem_of_singleton. apply Hx. by left.
    + by intros ?%elem_of_nil.
Qed.

Lemma call_written c st ids :
  Inv st → ids ∈ written (call c st) →
  NoDup ids ∧ withinCap (graphNodeSelectionMode st) (length ids).
Proof.
  intros [Hnd Hcap _ _ _] Hin. destruct c as [k|m|x|x|]; simpl in Hin.
  - by apply elem_of_nil in Hin.
  - by apply elem_of_nil in Hin.
  - unfold toggleNodeSelected in Hin. repeat case_decide.
    + apply toggleSingle_written in Hin as [? ?]. split; [done|]. cap_cases.
    + apply toggleDouble_written in Hin as [? ?]; [|done|cap_cases].
      split; [done|]. cap_cases.
    + simpl in Hin. apply list_elem_of_singleton in Hin as ->.
      split; [by apply toggleDraft_NoDup | cap_cases].
    + by apply elem_of_nil in Hin.
  - unfold selectNode in Hin. repeat case_decide.
    + apply toggleSingle_written in Hin as [? ?]. split; [done|]. cap_cases.
    + simpl in Hin. apply list_elem_of_singleton in Hin as ->.
      split; [by apply selectDraft_NoDup | cap_cases].
    + by apply elem_of_nil in Hin.
  - apply list_elem_of_singleton in Hin as ->.
    split; [apply NoDup_nil_2 | apply withinCap_0].
Qed.

Lemma step_written i st ids :
  Inv st → ids ∈ written (step i st) →
  NoDup ids ∧ withinCap (graphNodeSelectionMode st) (length ids).
Proof.
  intros HI Hin. destruct i as [c|e cb|e cb|fields|]; simpl in Hin;
    try (by apply elem_of_nil in Hin).
  - by apply (call_written c).
  - unfold onMergedPagChange in Hin. case_decide; simpl in Hin;
      [|by apply elem_of_nil in Hin].
    apply list_elem_of_singleton in Hin as ->.
    split; [apply NoDup_nil_2 | apply withinCap_0].
Qed.

(** A step is a sequence of pushes of what it reports as written, around
    at most one assignment to the key or to the mode. *)
Lemma step_written_mode i st ids :
  ids ∈ written (step i st) →
  graphNodeSelectionMode (after (step i st)) = graphNodeSelectionMode st.
Proof.
  destruct i as [[k|m|x|x|]|e cb|e cb|fields|]; simpl;
    try (by intros ?%elem_of_nil).
  - unfold toggleNodeSelected, toggleSingle, toggleDouble, selectedFieldGroup.
    repeat case_decide; repeat case_match; simpl;
      first [by intros ?%elem_of_nil | by rewrite selectedFidArr_next_mode].
  - unfold selectNode, toggleSingle.
    repeat case_decide; repeat case_match; simpl;
      first [by intros ?%elem_of_nil | by rewrite selectedFidArr_next_mode].
  - by rewrite selectedFidArr_next_mode.
  - unfold onMergedPagChange. case_decide; simpl;
      first [by intros ?%elem_of_nil | by rewrite selectedFidArr_next_mode].
Qed.

Lemma Inv_step i st : Inv st → Inv (after (step i st)).
Proof.
  intros HI.
  assert (∀ ids, written (step i st) = [ids] →
    after (step i st) = selectedFidArr_next ids st → Inv (after (step i st))) as Hpush.
  { intros ids Hw ->. destruct (step_written i st ids HI) as [? ?].
    - rewrite Hw. apply list_elem_of_here.
    - by apply Inv_next. }
  destruct i as [[k|m|x|x|]|e cb|e cb|fields|]; simpl in *.
  - by apply Inv_assign_explorationKey.
  - by apply Inv_assign_graphNodeSelectionMode.
  - revert Hpush.
    unfold toggleNodeSelected, toggleSingle, toggleDouble, selectedFieldGroup.
    repeat case_decide; repeat case_match; simpl; intros Hpush;
      first [done | by eapply Hpush].
  - revert Hpush. unfold selectNode, toggleSingle.
    repeat case_decide; repeat case_match; simpl; intros Hpush;
      first [done | by eapply Hpush].
  - by eapply Hpush.
  - by destruct HI; split.
  - by destruct HI; split.
  - unfold onFieldsChange. case_decide; [|done].
    by destruct HI; split.
  - revert Hpush. unfold onMergedPagChange.
    case_decide; simpl; intros Hpush; first [done | by eapply Hpush].
Qed.

Lemma Inv_run inputs st : Inv st → Inv (run inputs st).
Proof.
  revert st. induction inputs as [|i inputs IH]; intros st HI; [done|].
  simpl. by apply IH, Inv_step.
Qed.

Lemma Inv_session snapshot inputs : Inv (session snapshot inputs).
Proof. apply Inv_run, Inv_new. Qed.

(** ** Selection invariants *)

(** When every call is an action of its own: in every session, each
    sequence an input makes the store push into [selectedFidArr$] is free
    of duplicates and no longer than the cap of the selection mode, and
    the mode is the same before and after the input that pushes. *)
Lemma written_nodup_within_cap snapshot inputs i ids :
  ids ∈ written (step i (session snapshot inputs)) →
  NoDup ids
  ∧ withinCap (graphNodeSelectionMode (session snapshot inputs)) (length ids)
  ∧ graphNodeSelectionMode (after (step i (session snapshot inputs)))
    = graphNodeSelectionMode (session snapshot inputs).
Proof.
  intros Hin. pose proof (Inv_session snapshot inputs) as HI.
  destruct (step_written _ _ _ HI Hin) as [Hnd Hcap].
  split_and!; [done | done | by eapply step_written_mode].
Qed.

Lemma written_nodup_within_cap_witness :
  NoDup ["a"; "b"]
  ∧ withinCap DOUBLE 2
  ∧ graphNodeSelectionMode
      (after (step (Call (ToggleNodeSelected "b"))
                (session (Some [field_a; field_b; field_c])
                   [Call (SetExplorationKey HYPOTHESIS_TEST);
                    Call (ToggleNodeSelected "a")])))
    = DOUBLE.
Proof.
  apply (written_nodup_within_cap (Some [field_a; field_b; field_c])
           [Call (SetExplorationKey HYPOTHESIS_TEST);
            Call (ToggleNodeSelected "a")]
           (Call (ToggleNodeSelected "b")) ["a"; "b"]).
  vm_compute. apply list_elem_of_here.
Defined.

(** The resolved selection of a session obeys the same bounds. *)
Lemma selection_nodup_within_cap snapshot inputs :
  NoDup (fid <$> selectedFieldGroup (session snapshot inputs))
  ∧ withinCap (graphNodeSelectionMode (session snapshot inputs))
      (length (selectedFieldGroup (session snapshot inputs))).
Proof. by destruct (Inv_session snapshot inputs). Qed.

Example cardinalityCap_table :
  cardinalityCap NONE = Some 0 ∧ cardinalityCap SINGLE = Some 1
  ∧ cardinalityCap DOUBLE = Some 2 ∧ cardinalityCap MULTIPLE = None.
Proof. done. Qed.

(** ** Toggling in [DOUBLE] mode *)

Lemma Exists_fid x (group : list IFieldMeta) :
  Exists (λ f, fid f = x) group ↔ x ∈ fid <$> group.
Proof.
  rewrite Exists_exists, list_elem_of_fmap.
  split; intros (f & H1 & H2); exists f; by split.
Qed.

(** C2.  In [DOUBLE] mode [toggleNodeSelected x]: pushes the group without
    [x] and returns [false] when [x] is in the group; pushes [[x]] and
    returns [true] on the empty group; pushes nothing and returns [false]
    on a group of two without [x]; pushes the pair and returns [false] on a
    group of one other element. *)
Theorem toggleNodeSelected_DOUBLE x st :
  graphNodeSelectionMode st = DOUBLE →
  (x ∈ fid <$> selectedFieldGroup st →
     written (toggleNodeSelected x st)
     = [fid <$> filter (λ f, fid f ≠ x) (selectedFieldGroup st)]
     ∧ returned (toggleNodeSelected x st) = Some false)
  ∧ (selectedFieldGroup st = [] →
     written (toggleNodeSelected x st) = [[x]]
     ∧ returned (toggleNodeSelected x st) = Some true)
  ∧ (x ∉ fid <$> selectedFieldGroup st →
     length (selectedFieldGroup st) = 2 →
     written (toggleNodeSelected x st) = []
     ∧ returned (toggleNodeSelected x st) = Some false
     ∧ after (toggleNodeSelected x st) = st)
  ∧ (∀ existing, selectedFieldGroup st = [existing] → fid existing ≠ x →
     written (toggleNodeSelected x st) = [[fid existing; x]]
     ∧ returned (toggleNodeSelected x st) = Some false).
Proof.
  intros Hm. unfold toggleNodeSelected. rewrite Hm.
  rewrite decide_False, decide_True by done.
  unfold toggleDouble. split_and!.
  - intros Hx%Exists_fid. by rewrite decide_True.
  - intros ->. rewrite decide_False; [done|]. by intros ?%Exists_nil.
  - intros Hx Hlen. rewrite decide_False by (by rewrite Exists_fid).
    by destruct (selectedFieldGroup st) as [|? [|? [|? ?]]].
  - intros existing -> Hne. rewrite decide_False; [done|].
    rewrite Exists_fid. by intros ?%list_elem_of_singleton.
Qed.

Lemma toggleNodeSelected_DOUBLE_witness :
  (written (toggleNodeSelected "a"
      (session (Some [field_a; field_b; field_c])
         [Call (SetNodeSelectionMode DOUBLE); Call (ToggleNodeSelected "a");
          Call (ToggleNodeSelected "b")])) = [["b"]]
   ∧ returned (toggleNodeSelected "a"
      (session (Some [field_a; field_b; field_c])
         [Call (SetNodeSelectionMode DOUBLE); Call (ToggleNodeSelected "a");
          Call (ToggleNodeSelected "b")])) = Some false)
  ∧ (written (toggleNodeSelected "b"
      (session (Some [field_a; field_b; field_c])
         [Call (SetNodeSelectionMode DOUBLE); Call (ToggleNodeSelected "a")]))
     = [["a"; "b"]]
   ∧ returned (toggleNodeSelected "b"
      (session (Some [field_a; field_b; field_c])
         [Call (SetNodeSelectionMode DOUBLE); Call (ToggleNodeSelected "a")]))
     = Some false).
Proof.
  split.
  - destruct (toggleNodeSelected_DOUBLE "a"
      (session (Some [field_a; field_b; field_c])
         [Call (SetNodeSelectionMode DOUBLE); Call (ToggleNodeSelected "a");
          Call (ToggleNodeSelected "b")]) eq_refl) as (Hin & _).
    apply Hin. vm_compute. apply list_elem_of_here.
  - destruct (toggleNodeSelected_DOUBLE "b"
      (session (Some [field_a; field_b; field_c])
         [Call (SetNodeSelectionMode DOUBLE); Call (ToggleNodeSelected "a")])
      eq_refl) as (_ & _ & _ & Hone).
    apply (Hone field_a); [reflexivity|]. vm_compute. discriminate.
Defined.

(** The run of the specification: a, then b, then c on a full pair. *)
Example toggle_DOUBLE_abc :
  fid <$> selectedFieldGroup
    (session (Some [field_a; field_b; field_c])
       [Call (SetNodeSelectionMode DOUBLE); Call (ToggleNodeSelected "a")])
  = ["a"]
  ∧ fid <$> selectedFieldGroup
    (session (Some [field_a; field_b; field_c])
       [Call (SetNodeSelectionMode DOUBLE); Call (ToggleNodeSelected "a");
        Call (ToggleNodeSelected "b")])
  = ["a"; "b"]
  ∧ fid <$> selectedFieldGroup
    (session (Some [field_a; field_b; field_c])
       [Call (SetNodeSelectionMode DOUBLE); Call (ToggleNodeSelected "a");
        Call (ToggleNodeSelected "b"); Call (ToggleNodeSelected "c")])
  = ["a"; "b"].
Proof. by vm_compute. Qed.

(** In a session the group of [DOUBLE] mode has at most two elements, so
    the four cases above are all there are. *)
Lemma DOUBLE_group_size snapshot inputs :
  graphNodeSelectionMode (session snapshot inputs) = DOUBLE →
  length (selectedFieldGroup (session snapshot inputs)) ≤ 2.
Proof.
  intros Hm. destruct (Inv_session snapshot inputs) as [_ Hcap _ _ _].
  unfold selectedFieldGroup. rewrite Hm in Hcap. apply Hcap.
Qed.

(** ** Changing the selection mode *)

Lemma onSelectionModeChange_mode st :
  graphNodeSelectionMode (onSelectionModeChange st) = graphNodeSelectionMode st.
Proof. unfold onSelectionModeChange. by repeat case_decide. Qed.

Lemma onSelectionModeChange_key st :
  explorationKey (onSelectionModeChange st) = explorationKey st.
Proof. unfold onSelectionModeChange. by repeat case_decide. Qed.

Lemma assign_graphNodeSelectionMode_mode m st :
  graphNodeSelectionMode (assign_graphNodeSelectionMode m st) = m.
Proof.
  unfold assign_graphNodeSelectionMode. case_decide; [|done].
  by rewrite onSelectionModeChange_mode.
Qed.

Lemma assign_graphNodeSelectionMode_key m st :
  explorationKey (assign_graphNodeSelectionMode m st) = explorationKey st.
Proof.
  unfold assign_graphNodeSelectionMode. case_decide; [|done].
  by rewrite onSelectionModeChange_key.
Qed.

(** The selection left by an assignment of a new mode. *)
Lemma assign_graphNodeSelectionMode_nodes m st :
  OnSelectionMode ∈ liveReactions st →
  m ≠ graphNodeSelectionMode st →
  (m = SINGLE ∨ m = DOUBLE →
     _selectedNodes (assign_graphNodeSelectionMode m st)
     = option_list (last (_selectedNodes st)))
  ∧ (m = MULTIPLE →
     _selectedNodes (assign_graphNodeSelectionMode m st) = _selectedNodes st)
  ∧ (m ≠ SINGLE → m ≠ DOUBLE → m ≠ MULTIPLE →
     _selectedNodes (assign_graphNodeSelectionMode m st) = []).
Proof.
  intros Hlive Hne. unfold assign_graphNodeSelectionMode.
  rewrite decide_True by done. unfold onSelectionModeChange. simpl.
  split_and!.
  - intros Hm. rewrite decide_True by done. simpl. apply drop_pred_length.
  - intros ->. by rewrite decide_False, decide_True by (done || by intros [?|?]).
  - intros H1 H2 H3. by rewrite !decide_False by (done || by intros [?|?]).
Qed.

(** Only the two assigning methods change the mode. *)
Lemma step_mode_changed i st :
  graphNodeSelectionMode (after (step i st)) ≠ graphNodeSelectionMode st →
  ∃ m st0,
    after (step i st) = assign_graphNodeSelectionMode m st0
    ∧ graphNodeSelectionMode st0 = graphNodeSelectionMode st
    ∧ _selectedNodes st0 = _selectedNodes st
    ∧ liveReactions st0 = liveReactions st.
Proof.
  destruct i as [[k|m|x|x|]|e cb|e cb|fields|]; simpl; intros Hne.
  - unfold assign_explorationKey in *. case_decide; [|done].
    by exists (selectionModeOf k), (with_explorationKey k st).
  - by exists m, st.
  - exfalso. apply Hne. unfold toggleNodeSelected, toggleSingle, toggleDouble.
    repeat case_decide; repeat case_match; simpl;
      by rewrite ?selectedFidArr_next_mode.
  - exfalso. apply Hne. unfold selectNode, toggleSingle.
    repeat case_decide; repeat case_match; simpl;
      by rewrite ?selectedFidArr_next_mode.
  - exfalso. apply Hne. by rewrite selectedFidArr_next_mode.
  - done.
  - done.
  - exfalso. apply Hne. unfold onFieldsChange. by case_decide.
  - exfalso. apply Hne. unfold onMergedPagChange.
    case_decide; simpl; by rewrite ?selectedFidArr_next_mode.
Qed.

(** C3.  While the reaction on the mode is live, an input that changes the
    selection mode leaves: the last element of the selection when the new
    mode is [SINGLE] or [DOUBLE]; the selection as it was when it is
    [MULTIPLE]; the empty selection when it is [NONE] or no mode of the
    enum.  [setNodeSelectionMode m] makes [m] the mode. *)
Theorem mode_change_clamps_selection i st :
  OnSelectionMode ∈ liveReactions st →
  graphNodeSelectionMode (after (step i st)) ≠ graphNodeSelectionMode st →
  (graphNodeSelectionMode (after (step i st)) = SINGLE
   ∨ graphNodeSelectionMode (after (step i st)) = DOUBLE →
     selectedFieldGroup (after (step i st))
     = option_list (last (selectedFieldGroup st)))
  ∧ (graphNodeSelectionMode (after (step i st)) = MULTIPLE →
     selectedFieldGroup (after (step i st)) = selectedFieldGroup st)
  ∧ (graphNodeSelectionMode (after (step i st)) ≠ SINGLE →
     graphNodeSelectionMode (after (step i st)) ≠ DOUBLE →
     graphNodeSelectionMode (after (step i st)) ≠ MULTIPLE →
     selectedFieldGroup (after (step i st)) = [])
  ∧ (∀ m, graphNodeSelectionMode
            (after (step (Call (SetNodeSelectionMode m)) st)) = m).
Proof.
  intros Hlive Hne. unfold selectedFieldGroup.
  destruct (step_mode_changed i st Hne) as (m & st0 & Heq & Hm & Hn & Hr).
  rewrite Heq in *. rewrite assign_graphNodeSelectionMode_mode in *.
  rewrite <- Hm in Hne. rewrite <- Hr in Hlive. rewrite <- Hn.
  destruct (assign_graphNodeSelectionMode_nodes m st0 Hlive Hne)
    as (H1 & H2 & H3).
  split_and!; try done.
  intros m'. apply assign_graphNodeSelectionMode_mode.
Qed.

Lemma mode_change_clamps_selection_witness :
  selectedFieldGroup
    (after (step (Call (SetNodeSelectionMode SINGLE))
       (session (Some [field_a; field_b; field_c])
          [Call (ToggleNodeSelected "a"); Call (ToggleNodeSelected "b");
           Call (ToggleNodeSelected "c")])))
  = [field_c]
  ∧ selectedFieldGroup
    (after (step (Call (SetExplorationKey WHAT_IF))
       (session (Some [field_a; field_b; field_c])
          [Call (ToggleNodeSelected "a"); Call (ToggleNodeSelected "b");
           Call (ToggleNodeSelected "c")])))
  = [].
Proof.
  split.
  - destruct (mode_change_clamps_selection
      (Call (SetNodeSelectionMode SINGLE))
      (session (Some [field_a; field_b; field_c])
         [Call (ToggleNodeSelected "a"); Call (ToggleNodeSelected "b");
          Call (ToggleNodeSelected "c")])) as (Hlast & _).
    + vm_compute. apply list_elem_of_further, list_elem_of_further,
        list_elem_of_here.
    + vm_compute. discriminate.
    + apply Hlast. left. reflexivity.
  - destruct (mode_change_clamps_selection
      (Call (SetExplorationKey WHAT_IF))
      (session (Some [field_a; field_b; field_c])
         [Call (ToggleNodeSelected "a"); Call (ToggleNodeSelected "b");
          Call (ToggleNodeSelected "c")])) as (_ & _ & Hclear & _).
    + vm_compute. apply list_elem_of_further, list_elem_of_further,
        list_elem_of_here.
    + vm_compute. discriminate.
    + apply Hclear; vm_compute; discriminate.
Defined.

(** ** The exploration key drives the mode *)

Lemma selectionModeOf_table :
  selectionModeOf CAUSAL_INSIGHT = SINGLE
  ∧ selectionModeOf PREDICT = SINGLE
  ∧ selectionModeOf AUTO_VIS = MULTIPLE
  ∧ selectionModeOf CROSS_FILTER = MULTIPLE
  ∧ selectionModeOf HYPOTHESIS_TEST = DOUBLE
  ∧ (∀ k, k ∉ [CAUSAL_INSIGHT; PREDICT; AUTO_VIS; CROSS_FILTER; HYPOTHESIS_TEST] →
       selectionModeOf k = NONE).
Proof.
  split_and!; try done.
  intros k Hk. rewrite !not_elem_of_cons in Hk.
  destruct Hk as (? & ? & ? & ? & ? & _).
  unfold selectionModeOf. by rewrite !decide_False by (done || by intros [?|?]).
Qed.

(** C5, as the store has it.  While the reaction on the key is live,
    [setExplorationKey k] with a key other than the current one sets the
    mode to the entry of the table for [k]; with the current key it leaves
    the mode as it is.  The table is the one of the specification. *)
Theorem setExplorationKey_mode k st :
  OnExplorationKey ∈ liveReactions st →
  explorationKey (after (setExplorationKey k st)) = k
  ∧ (k ≠ explorationKey st →
     graphNodeSelectionMode (after (setExplorationKey k st)) = selectionModeOf k)
  ∧ (k = explorationKey st →
     graphNodeSelectionMode (after (setExplorationKey k st))
     = graphNodeSelectionMode st)
  ∧ selectionModeOf CAUSAL_INSIGHT = SINGLE
  ∧ selectionModeOf PREDICT = SINGLE
  ∧ selectionModeOf AUTO_VIS = MULTIPLE
  ∧ selectionModeOf CROSS_FILTER = MULTIPLE
  ∧ selectionModeOf HYPOTHESIS_TEST = DOUBLE
  ∧ (∀ k', k' ∉ [CAUSAL_INSIGHT; PREDICT; AUTO_VIS; CROSS_FILTER; HYPOTHESIS_TEST] →
       selectionModeOf k' = NONE).
Proof.
  intros Hlive. simpl. unfold assign_explorationKey, onExplorationKeyChange.
  split_and!; try apply selectionModeOf_table.
  - case_decide; [|done]. by rewrite assign_graphNodeSelectionMode_key.
  - intros Hne. rewrite decide_True by done.
    by rewrite assign_graphNodeSelectionMode_mode.
  - intros ->. rewrite decide_False; [done|]. by intros [? _].
Qed.

Lemma setExplorationKey_mode_witness :
  graphNodeSelectionMode
    (after (setExplorationKey HYPOTHESIS_TEST (new_CausalViewStore None)))
  = DOUBLE
  ∧ graphNodeSelectionMode
    (after (setExplorationKey GRAPHIC_WALKER (new_CausalViewStore None)))
  = NONE.
Proof.
  split.
  - destruct (setExplorationKey_mode HYPOTHESIS_TEST (new_CausalViewStore None))
      as (_ & Hchanged & _).
    + vm_compute. apply list_elem_of_further, list_elem_of_here.
    + apply Hchanged. vm_compute. discriminate.
  - destruct (setExplorationKey_mode GRAPHIC_WALKER (new_CausalViewStore None))
      as (_ & Hchanged & _).
    + vm_compute. apply list_elem_of_further, list_elem_of_here.
    + apply Hchanged. vm_compute. discriminate.
Defined.

(** C5, as stated, fails: the reaction does not run when the key handed to
    [setExplorationKey] is the current one, so a mode set through
    [setNodeSelectionMode] stays. *)
Lemma setExplorationKey_same_key_keeps_mode :
  graphNodeSelectionMode
    (after (setExplorationKey AUTO_VIS
       (session None [Call (SetNodeSelectionMode SINGLE)])))
  = SINGLE
  ∧ selectionModeOf AUTO_VIS = MULTIPLE
  ∧ ¬ (∀ snapshot inputs k,
         graphNodeSelectionMode
           (after (setExplorationKey k (session snapshot inputs)))
         = selectionModeOf k).
Proof.
  split_and!; [done | done |].
  intros H. specialize (H None [Call (SetNodeSelectionMode SINGLE)] AUTO_VIS).
  vm_compute in H. discriminate.
Qed.

(** ** Toggling twice in [SINGLE] mode *)

Lemma selectedField_is_true x st :
  selectedField_is x st = true ↔ fid <$> selectedField st = Some x.
Proof.
  unfold selectedField_is. destruct (selectedField st) as [f|]; simpl.
  - rewrite bool_decide_eq_true. split; [by intros -> | by intros [=]].
  - split; discriminate.
Qed.

Lemma resolved_spec_one x fields :
  resolved_spec [x] fields = option_list (matching x fields).
Proof. unfold resolved_spec. simpl. by destruct (matching x fields). Qed.

(** C6, as the store has it.  In a session in [SINGLE] mode, when [x] is
    not the identifier of the selected entity, toggling [x] twice leaves
    the selection empty. *)
Theorem toggle_twice_SINGLE snapshot inputs x :
  graphNodeSelectionMode (session snapshot inputs) = SINGLE →
  fid <$> selectedField (session snapshot inputs) ≠ Some x →
  selectedFieldGroup
    (after (toggleNodeSelected x
       (after (toggleNodeSelected x (session snapshot inputs)))))
  = [].
Proof.
  pose proof (Inv_session snapshot inputs) as HI.
  generalize dependent (session snapshot inputs). intros st HI Hm Hx.
  assert (∀ st', graphNodeSelectionMode st' = SINGLE →
    toggleNodeSelected x st' = toggleSingle x st') as Hsingle.
  { intros st' Hm'. unfold toggleNodeSelected. by rewrite Hm', decide_True. }
  rewrite (Hsingle st Hm). unfold toggleSingle.
  destruct (selectedField_is x st) eqn:Hsel;
    [by apply selectedField_is_true in Hsel|]. simpl.
  rewrite Hsingle by (by rewrite selectedFidArr_next_mode).
  unfold selectedFieldGroup.
  destruct (fields_latest st) as [fields|] eqn:Hf.
  - pose proof (Inv_live_subscription OnSelectedFidArr st HI) as Hlive.
    destruct (selectedFidArr_next_resolved [x] fields st Hlive Hf)
      as (Hn & Hf' & Hs').
    rewrite <- Hs' in Hlive. unfold toggleSingle.
    destruct (selectedField_is x (selectedFidArr_next [x] st)) eqn:Hsel'; simpl.
    + by destruct (selectedFidArr_next_resolved [] fields _ Hlive Hf')
        as (-> & _).
    + destruct (selectedFidArr_next_resolved [x] fields _ Hlive Hf')
        as (-> & _).
      rewrite resolved_spec_one.
      destruct (matching x fields) as [f|] eqn:E; [|done].
      destruct (matching_Some _ _ _ E) as [Hfid _].
      assert (selectedField_is x (selectedFidArr_next [x] st) = true) as Hc.
      { apply selectedField_is_true. unfold selectedField.
        rewrite Hn, resolved_spec_one, E. simpl. by rewrite Hfid. }
      congruence.
  - rewrite selectedFidArr_next_dropped by done.
    unfold toggleSingle. rewrite Hsel. simpl.
    rewrite selectedFidArr_next_dropped by done.
    by apply (inv_snapshot st).
Qed.

Lemma toggle_twice_SINGLE_witness :
  selectedFieldGroup
    (after (toggleNodeSelected "b"
       (after (toggleNodeSelected "b"
          (session (Some [field_a; field_b])
             [Call (SetNodeSelectionMode SINGLE);
              Call (ToggleNodeSelected "a")])))))
  = [].
Proof.
  apply (toggle_twice_SINGLE (Some [field_a; field_b])
           [Call (SetNodeSelectionMode SINGLE); Call (ToggleNodeSelected "a")]
           "b").
  - reflexivity.
  - vm_compute. discriminate.
Defined.

(** C6, as stated, fails when [x] is the selected identifier: the first
    toggle deselects it and the second selects it again. *)
Lemma toggle_twice_SINGLE_selected :
  graphNodeSelectionMode
    (session (Some [field_a])
       [Call (SetNodeSelectionMode SINGLE); Call (ToggleNodeSelected "a")])
  = SINGLE
  ∧ selectedFieldGroup
      (after (toggleNodeSelected "a"
         (after (toggleNodeSelected "a"
            (session (Some [field_a])
               [Call (SetNodeSelectionMode SINGLE);
                Call (ToggleNodeSelected "a")])))))
    = [field_a]
  ∧ ¬ (∀ snapshot inputs x,
         graphNodeSelectionMode (session snapshot inputs) = SINGLE →
         selectedFieldGroup
           (after (toggleNodeSelected x
              (after (toggleNodeSelected x (session snapshot inputs)))))
         = []).
Proof.
  split_and!; [done | done |].
  intros H.
  specialize (H (Some [field_a])
    [Call (SetNodeSelectionMode SINGLE); Call (ToggleNodeSelected "a")] "a"
    eq_refl).
  vm_compute in H. discriminate.
Qed.

(** ** A change of the merged model *)

(** In a session a change of [mergedPag] pushes the empty sequence and
    leaves the selection empty, also before the first snapshot. *)
Lemma mergedPag_change_resets_selection snapshot inputs :
  written (step MergedPagChanged (session snapshot inputs)) = [[]]
  ∧ selectedFieldGroup (after (step MergedPagChanged (session snapshot inputs)))
    = []
  ∧ selectedField (after (step MergedPagChanged (session snapshot inputs)))
    = None
  ∧ graphNodeSelectionMode
      (after (step MergedPagChanged (session snapshot inputs)))
    = graphNodeSelectionMode (session snapshot inputs).
Proof.
  pose proof (Inv_session snapshot inputs) as HI.
  generalize dependent (session snapshot inputs). intros st HI.
  simpl. unfold onMergedPagChange, selectedField, selectedFieldGroup.
  rewrite decide_True by (by apply Inv_live_reaction). simpl.
  assert (_selectedNodes (selectedFidArr_next [] st) = []) as Hn.
  { destruct (fields_latest st) as [fields|] eqn:Hf.
    - by destruct (selectedFidArr_next_resolved [] fields st
        (Inv_live_subscription _ _ HI) Hf) as (-> & _).
    - rewrite selectedFidArr_next_dropped by done. by apply (inv_snapshot st). }
  by rewrite Hn, selectedFidArr_next_mode.
Qed.

Example mergedPag_change_in_DOUBLE :
  fid <$> selectedFieldGroup
    (session (Some [field_a; field_b])
       [Call (SetExplorationKey HYPOTHESIS_TEST); Call (ToggleNodeSelected "a");
        Call (ToggleNodeSelected "b")])
  = ["a"; "b"]
  ∧ selectedFieldGroup
    (session (Some [field_a; field_b])
       [Call (SetExplorationKey HYPOTHESIS_TEST); Call (ToggleNodeSelected "a");
        Call (ToggleNodeSelected "b"); MergedPagChanged])
  = [].
Proof. by vm_compute. Qed.

(** ** Resolution *)

(** C7.  With the subscription live and [fields] the latest snapshot, a
    push of [ids] is resolved, never refused: the selection becomes the
    matching entities in the order of [ids], the identifiers without a
    matching entity are left out and are each reported through
    [console.warn]. *)
Theorem resolution_omits_unmatched ids fields st :
  OnSelectedFidArr ∈ liveSubscriptions st →
  fields_latest st = Some fields →
  resolution ids (Some fields)
  = Some (resolved_spec ids fields, unresolved_spec ids fields)
  ∧ selectedFieldGroup (selectedFidArr_next ids st) = resolved_spec ids fields
  ∧ console_warn (selectedFidArr_next ids st)
    = console_warn st ++ unresolved_spec ids fields
  ∧ fid <$> resolved_spec ids fields = filter (λ x, x ∈ fid <$> fields) ids
  ∧ (∀ f, f ∈ resolved_spec ids fields → f ∈ fields).
Proof.
  intros Hlive Hf.
  assert (resolution ids (Some fields)
          = Some (resolved_spec ids fields, unresolved_spec ids fields)) as Hr.
  { unfold resolution. simpl. by rewrite resolveSelection_eq. }
  unfold selectedFieldGroup, selectedFidArr_next.
  rewrite decide_True, Hf, Hr by done. simpl.
  split_and!; try done; [apply resolved_spec_fids|].
  intros f. unfold resolved_spec. rewrite list_elem_of_omap.
  intros (x & _ & Hx). by apply matching_Some in Hx as [_ ?].
Qed.

Lemma resolution_omits_unmatched_witness :
  resolution ["c"; "z"; "a"] (Some [field_a; field_b; field_c])
  = Some ([field_c; field_a], ["z"])
  ∧ selectedFieldGroup
      (selectedFidArr_next ["c"; "z"; "a"]
         (new_CausalViewStore (Some [field_a; field_b; field_c])))
    = [field_c; field_a]
  ∧ console_warn
      (selectedFidArr_next ["c"; "z"; "a"]
         (new_CausalViewStore (Some [field_a; field_b; field_c])))
    = ["z"].
Proof.
  destruct (resolution_omits_unmatched ["c"; "z"; "a"]
              [field_a; field_b; field_c]
              (new_CausalViewStore (Some [field_a; field_b; field_c])))
    as (H1 & H2 & H3 & _).
  - vm_compute. apply list_elem_of_here.
  - reflexivity.
  - split_and!; [exact H1 | exact H2 | exact H3].
Defined.

(** ** Teardown *)

Lemma forEach_steps {A : Type} (f : A → TeardownStep) xs acc :
  (forEach f xs acc).1 = acc.1 ++ (f <$> xs).
Proof.
  revert acc. unfold forEach.
  induction xs as [|x xs IH]; intros acc; simpl; [by rewrite app_nil_r|].
  rewrite IH. simpl. by rewrite <- app_assoc.
Qed.

Lemma destroy_liveReactions st : liveReactions (destroy st).2 = [].
Proof.
  simpl. apply elem_of_nil_inv. intros r.
  rewrite !list_elem_of_filter. destruct r; intros (? & ? & ? & _); done.
Qed.

Lemma destroy_liveSubscriptions st : liveSubscriptions (destroy st).2 = [].
Proof.
  simpl. apply elem_of_nil_inv. intros s.
  rewrite !list_elem_of_filter. destruct s; intros (? & _); done.
Qed.

(** C9.  [destroy], on any store: disposes the three mobx reactions, then
    unsubscribes the rxjs subscription, then resets the two listener
    lists, in that order; no reaction and no subscription is live
    afterwards and no listener is registered. *)
Theorem destroy_order st :
  (destroy st).1
  = (Disposed <$> mobxReactions) ++ (Unsubscribed <$> rxReactions)
    ++ (ListenersReset <$> listenerKeys)
  ∧ liveReactions (destroy st).2 = []
  ∧ liveSubscriptions (destroy st).2 = []
  ∧ (∀ eventName, listenersOf eventName (listeners (destroy st).2) = [])
  ∧ (∀ r, Disposed r ∈ (destroy st).1)
  ∧ (∀ s, Unsubscribed s ∈ (destroy st).1)
  ∧ (∀ key, ListenersReset key ∈ (destroy st).1).
Proof.
  split_and!.
  - unfold destroy. by rewrite !forEach_steps.
  - apply destroy_liveReactions.
  - apply destroy_liveSubscriptions.
  - by intros [].
  - intros []; simpl; rewrite !elem_of_cons; auto 10.
  - intros []; simpl; rewrite !elem_of_cons; auto 10.
  - intros []; simpl; rewrite !elem_of_cons; auto 10.
Qed.

Example destroy_with_listeners :
  destroy (session None [AddEventListener nodeClick 7;
                         AddEventListener nodeDoubleClick 8;
                         AddEventListener nodeClick 9;
                         RemoveEventListener nodeClick 7])
  = ([Disposed OnMergedPag; Disposed OnExplorationKey; Disposed OnSelectionMode;
      Unsubscribed OnSelectedFidArr;
      ListenersReset nodeClick; ListenersReset nodeDoubleClick],
     with_liveSubscriptions []
       (with_liveReactions [] (new_CausalViewStore None)))
  ∧ listeners (session None [AddEventListener nodeClick 7;
                             AddEventListener nodeDoubleClick 8;
                             AddEventListener nodeClick 9;
                             RemoveEventListener nodeClick 7])
    = {| on_nodeClick := [9]; on_nodeDoubleClick := [8] |}.
Proof. by vm_compute. Qed.

(** After [destroy] the selection no longer changes. *)
Lemma destroyed_selection_frozen st i :
  _selectedNodes (after (step i (destroy st).2)) = _selectedNodes st.
Proof.
  pose proof (destroy_liveReactions st) as Hr.
  pose proof (destroy_liveSubscriptions st) as Hs.
  assert (_selectedNodes (destroy st).2 = _selectedNodes st) as <- by done.
  generalize dependent (destroy st).2. intros st' Hr Hs.
  assert (∀ ids, selectedFidArr_next ids st' = st') as Hnext.
  { intros ids. unfold selectedFidArr_next. rewrite Hs.
    rewrite decide_False; [done|]. by intros ?%elem_of_nil. }
  destruct i as [[k|m|x|x|]|e cb|e cb|fields|]; simpl;
    unfold assign_explorationKey, onExplorationKeyChange,
      assign_graphNodeSelectionMode, onFieldsChange, onMergedPagChange,
      toggleNodeSelected, selectNode, toggleSingle, toggleDouble,
      clearSelected, push, quiet, selectedFieldGroup;
    rewrite ?Hr, ?Hs;
    repeat (rewrite decide_False by (by intros [_ ?%elem_of_nil]
                                     || by intros ?%elem_of_nil));
    repeat case_decide; repeat case_match; simpl; rewrite ?Hnext; done.
Qed.

(** ** The new store *)

Lemma Fresh_step i st :
  isCall i = false → Inv st → Fresh st → Fresh (after (step i st)).
Proof.
  intros Hi HI [Hk Hm Hn Hl Hr].
  destruct i as [c|e cb|e cb|fields|]; try done; simpl.
  - unfold onFieldsChange. by case_decide.
  - unfold onMergedPagChange. case_decide; [|done]. simpl.
    destruct (fields_latest st) as [fields'|] eqn:Hf.
    + destruct (selectedFidArr_next_resolved [] fields' st
        (Inv_live_subscription _ _ HI) Hf) as (Hn' & _).
      unfold selectedFidArr_next in *. case_decide; [|done].
      by destruct (resolution [] (fields_latest st)) as [[? ?]|].
    + by rewrite selectedFidArr_next_dropped.
Qed.

(** C10.  A store on which no method has been called yet, whatever the
    upstream store has pushed and whatever listeners were registered, has
    key [AUTO_VIS], mode [MULTIPLE], an empty selection, layout [FORCE] and
    the renderer the constructor installed. *)
Theorem new_store_state snapshot inputs :
  forallb (λ i, negb (isCall i)) inputs = true →
  explorationKey (session snapshot inputs) = AUTO_VIS
  ∧ graphNodeSelectionMode (session snapshot inputs) = MULTIPLE
  ∧ selectedFieldGroup (session snapshot inputs) = []
  ∧ selectedField (session snapshot inputs) = None
  ∧ layoutMethod (session snapshot inputs) = FORCE
  ∧ onRenderNode (session snapshot inputs) = Some defaultRenderNode.
Proof.
  intros Hin.
  assert (Fresh (session snapshot inputs)) as [Hk Hm Hn Hl Hr].
  { unfold session.
    assert (Inv (new_CausalViewStore snapshot)) as HI by apply Inv_new.
    assert (Fresh (new_CausalViewStore snapshot)) as HF by by split.
    revert HI HF. generalize (new_CausalViewStore snapshot).
    induction inputs as [|i inputs IH]; intros st HI HF; [done|].
    simpl in Hin. apply andb_prop in Hin as [Hi Hin].
    apply negb_true_iff in Hi. simpl.
    apply IH; [done | by apply Inv_step | by apply Fresh_step]. }
  unfold selectedField, selectedFieldGroup. by rewrite Hn.
Qed.

Lemma new_store_state_witness :
  explorationKey (session (Some [field_a])
                    [FieldsChanged [field_a; field_b]; MergedPagChanged;
                     AddEventListener nodeClick 1]) = AUTO_VIS
  ∧ graphNodeSelectionMode (session (Some [field_a])
                    [FieldsChanged [field_a; field_b]; MergedPagChanged;
                     AddEventListener nodeClick 1]) = MULTIPLE
  ∧ selectedFieldGroup (session (Some [field_a])
                    [FieldsChanged [field_a; field_b]; MergedPagChanged;
                     AddEventListener nodeClick 1]) = []
  ∧ selectedField (session (Some [field_a])
                    [FieldsChanged [field_a; field_b]; MergedPagChanged;
                     AddEventListener nodeClick 1]) = None
  ∧ layoutMethod (session (Some [field_a])
                    [FieldsChanged [field_a; field_b]; MergedPagChanged;
                     AddEventListener nodeClick 1]) = FORCE
  ∧ onRenderNode (session (Some [field_a])
                    [FieldsChanged [field_a; field_b]; MergedPagChanged;
                     AddEventListener nodeClick 1]) = Some defaultRenderNode.
Proof.
  apply (new_store_state (Some [field_a])
           [FieldsChanged [field_a; field_b]; MergedPagChanged;
            AddEventListener nodeClick 1]).
  reflexivity.
Defined.

(** * Further properties of the store *)

(** ** Toggling and selecting in [MULTIPLE] mode *)

Lemma filter_all {A : Type} (P : A → Prop) `{∀ x, Decision (P x)} (l : list A) :
  (∀ z, z ∈ l → P z) → filter P l = l.
Proof.
  induction l as [|y l IH]; intros Hall; [done|].
  rewrite filter_cons, decide_True by (apply Hall; by left).
  f_equal. apply IH. intros z Hz. apply Hall. by right.
Qed.

Lemma findIndex_cons x y draft :
  findIndex x (y :: draft)
  = if decide (y = x) then Some 0 else S <$> findIndex x draft.
Proof.
  unfold findIndex. simpl. case_decide; [done|].
  by destruct (list_find _ draft) as [[? ?]|].
Qed.

Lemma findIndex_None x draft : findIndex x draft = None ↔ x ∉ draft.
Proof.
  induction draft as [|y draft IH]; [by split; [intros _ ?%elem_of_nil|]|].
  rewrite findIndex_cons, not_elem_of_cons. case_decide as Hy.
  - split; [done | by intros [? _]].
  - rewrite fmap_None, IH. split; [by split | by intros [_ ?]].
Qed.

(** On a sequence without duplicates, [splice] at the index of [x] takes
    [x] out and keeps the others in order. *)
Lemma toggleDraft_spec x draft :
  NoDup draft →
  toggleDraft x draft
  = if decide (x ∈ draft) then filter (λ y, y ≠ x) draft else draft ++ [x].
Proof.
  unfold toggleDraft. induction draft as [|y draft IH]; intros Hnd.
  - rewrite decide_False; [done | apply not_elem_of_nil].
  - apply NoDup_cons in Hnd as [Hy Hnd]. specialize (IH Hnd).
    rewrite findIndex_cons, filter_cons. destruct (decide (y = x)) as [->|Hne].
    + rewrite decide_True by (by left).
      rewrite decide_False by (intros Hxx; by apply Hxx). simpl.
      symmetry. apply filter_all. intros z Hz Hzx. subst. by apply Hy.
    + rewrite (decide_True (P := y ≠ x)) by done.
      destruct (findIndex x draft) as [i|] eqn:E; simpl.
      * assert (x ∈ draft) as Hin.
        { destruct (decide (x ∈ draft)) as [|Hn]; [done|].
          apply findIndex_None in Hn. congruence. }
        rewrite decide_True in IH by done.
        rewrite decide_True by (by right). by rewrite IH.
      * apply findIndex_None in E.
        rewrite decide_False; [done|].
        rewrite elem_of_cons. by intros [?|?].
Qed.

Lemma selectDraft_spec x draft :
  selectDraft x draft = if decide (x ∈ draft) then draft else draft ++ [x].
Proof.
  unfold selectDraft. destruct (findIndex x draft) as [i|] eqn:E.
  - rewrite decide_True; [done|].
    destruct (decide (x ∈ draft)) as [|Hn]; [done|].
    apply findIndex_None in Hn. congruence.
  - apply findIndex_None in E. by rewrite decide_False.
Qed.

(** X3.  In a session in [MULTIPLE] mode with a snapshot, toggling [x]
    returns [undefined] and pushes the selected identifiers without [x]
    when [x] is selected, and with [x] appended when it is not; the new
    selection is what the snapshot resolves of the pushed sequence. *)
Theorem toggleNodeSelected_MULTIPLE snapshot inputs x fields :
  graphNodeSelectionMode (session snapshot inputs) = MULTIPLE →
  fields_latest (session snapshot inputs) = Some fields →
  returned (toggleNodeSelected x (session snapshot inputs)) = None
  ∧ written (toggleNodeSelected x (session snapshot inputs))
    = [if decide (x ∈ fid <$> selectedFieldGroup (session snapshot inputs))
       then filter (λ y, y ≠ x)
              (fid <$> selectedFieldGroup (session snapshot inputs))
       else (fid <$> selectedFieldGroup (session snapshot inputs)) ++ [x]]
  ∧ fid <$> selectedFieldGroup
              (after (toggleNodeSelected x (session snapshot inputs)))
    = filter (λ y, y ∈ fid <$> fields)
        (if decide (x ∈ fid <$> selectedFieldGroup (session snapshot inputs))
         then filter (λ y, y ≠ x)
                (fid <$> selectedFieldGroup (session snapshot inputs))
         else (fid <$> selectedFieldGroup (session snapshot inputs)) ++ [x]).
Proof.
  pose proof (Inv_session snapshot inputs) as HI.
  generalize dependent (session snapshot inputs). intros st HI Hm Hf.
  unfold toggleNodeSelected. rewrite Hm.
  rewrite !decide_False, decide_True by done. simpl.
  rewrite toggleDraft_spec by apply (inv_NoDup st HI).
  destruct (selectedFidArr_next_resolved
              (if decide (x ∈ fid <$> selectedFieldGroup st)
               then filter (λ y, y ≠ x) (fid <$> selectedFieldGroup st)
               else (fid <$> selectedFieldGroup st) ++ [x])
              fields st (Inv_live_subscription _ _ HI) Hf) as (Hn & _).
  split_and!; [done | done |].
  unfold selectedFieldGroup at 1. rewrite Hn. apply resolved_spec_fids.
Qed.

Lemma toggleNodeSelected_MULTIPLE_witness :
  written (toggleNodeSelected "a"
    (session (Some [field_a; field_b; field_c])
       [Call (ToggleNodeSelected "a"); Call (ToggleNodeSelected "b")]))
  = [["b"]]
  ∧ fid <$> selectedFieldGroup
      (after (toggleNodeSelected "a"
        (session (Some [field_a; field_b; field_c])
           [Call (ToggleNodeSelected "a"); Call (ToggleNodeSelected "b")])))
    = ["b"].
Proof.
  destruct (toggleNodeSelected_MULTIPLE (Some [field_a; field_b; field_c])
              [Call (ToggleNodeSelected "a"); Call (ToggleNodeSelected "b")]
              "a" [field_a; field_b; field_c]) as (_ & Hw & Hs).
  - reflexivity.
  - reflexivity.
  - split; [exact Hw | exact Hs].
Defined.

Lemma resolved_spec_app ids ids' fields :
  resolved_spec (ids ++ ids') fields
  = resolved_spec ids fields ++ resolved_spec ids' fields.
Proof. unfold resolved_spec. apply omap_app. Qed.

(** Identifiers the snapshot does not know contribute nothing. *)
Lemma resolved_spec_filter ids fields :
  resolved_spec (filter (λ y, y ∈ fid <$> fields) ids) fields
  = resolved_spec ids fields.
Proof.
  unfold resolved_spec. induction ids as [|y ids IH]; [done|].
  rewrite filter_cons. case_decide as Hy; cbn [omap list_omap].
  - by rewrite IH.
  - apply matching_None in Hy. by rewrite Hy.
Qed.

(** X4.  In a session in [MULTIPLE] mode with a snapshot, [selectNode x]
    returns [undefined] and pushes the selected identifiers, with [x]
    appended when it is not among them; it never takes an identifier out
    of the pushed sequence, and selecting [x] again changes nothing in the
    selection. *)
Theorem selectNode_MULTIPLE snapshot inputs x fields :
  graphNodeSelectionMode (session snapshot inputs) = MULTIPLE →
  fields_latest (session snapshot inputs) = Some fields →
  returned (selectNode x (session snapshot inputs)) = None
  ∧ written (selectNode x (session snapshot inputs))
    = [if decide (x ∈ fid <$> selectedFieldGroup (session snapshot inputs))
       then fid <$> selectedFieldGroup (session snapshot inputs)
       else (fid <$> selectedFieldGroup (session snapshot inputs)) ++ [x]]
  ∧ fid <$> selectedFieldGroup (after (selectNode x (session snapshot inputs)))
    = filter (λ y, y ∈ fid <$> fields)
        (if decide (x ∈ fid <$> selectedFieldGroup (session snapshot inputs))
         then fid <$> selectedFieldGroup (session snapshot inputs)
         else (fid <$> selectedFieldGroup (session snapshot inputs)) ++ [x])
  ∧ selectedFieldGroup
      (after (selectNode x (after (selectNode x (session snapshot inputs)))))
    = selectedFieldGroup (after (selectNode x (session snapshot inputs))).
Proof.
  pose proof (Inv_session snapshot inputs) as HI.
  generalize dependent (session snapshot inputs). intros st HI Hm Hf.
  assert (∀ st', graphNodeSelectionMode st' = MULTIPLE →
    selectNode x st'
    = push (selectDraft x (fid <$> selectedFieldGroup st')) None st') as Hsel.
  { intros st' Hm'. unfold selectNode. rewrite Hm'.
    by rewrite decide_False, decide_True. }
  pose proof (Inv_live_subscription OnSelectedFidArr st HI) as Hlive.
  rewrite !(Hsel st Hm). simpl. rewrite <- selectDraft_spec.
  set (ids := selectDraft x (fid <$> selectedFieldGroup st)).
  destruct (selectedFidArr_next_resolved ids fields st Hlive Hf)
    as (Hn & Hf' & Hs').
  split_and!; [done | done | |].
  - unfold selectedFieldGroup at 1. rewrite Hn. apply resolved_spec_fids.
  - rewrite Hsel by (by rewrite selectedFidArr_next_mode). simpl.
    rewrite <- Hs' in Hlive.
    destruct (selectedFidArr_next_resolved
                (selectDraft x
                   (fid <$> selectedFieldGroup (selectedFidArr_next ids st)))
                fields _ Hlive Hf') as (Hn' & _).
    unfold selectedFieldGroup in *. rewrite Hn', Hn.
    rewrite resolved_spec_fids, selectDraft_spec.
    case_decide as Hx.
    + apply resolved_spec_filter.
    + rewrite resolved_spec_app, resolved_spec_filter, resolved_spec_one.
      assert (x ∈ ids) as Hin.
      { unfold ids. rewrite selectDraft_spec. case_decide; [done|].
        apply elem_of_app. right. by left. }
      assert (x ∉ fid <$> fields) as Hnf.
      { intros Hxf. apply Hx, list_elem_of_filter. by split. }
      apply matching_None in Hnf. rewrite Hnf. apply app_nil_r.
Qed.

Lemma selectNode_MULTIPLE_witness :
  written (selectNode "a"
    (session (Some [field_a; field_b])
       [Call (SelectNode "a"); Call (SelectNode "b")]))
  = [["a"; "b"]]
  ∧ fid <$> selectedFieldGroup
      (after (selectNode "c"
        (session (Some [field_a; field_b])
           [Call (SelectNode "a"); Call (SelectNode "b")])))
    = ["a"; "b"].
Proof.
  split.
  - destruct (selectNode_MULTIPLE (Some [field_a; field_b])
                [Call (SelectNode "a"); Call (SelectNode "b")]
                "a" [field_a; field_b]) as (_ & Hw & _);
      [reflexivity | reflexivity | exact Hw].
  - destruct (selectNode_MULTIPLE (Some [field_a; field_b])
                [Call (SelectNode "a"); Call (SelectNode "b")]
                "c" [field_a; field_b]) as (_ & _ & Hs & _);
      [reflexivity | reflexivity | exact Hs].
Defined.

(** ** [clearSelected] *)

Lemma push_nil_empties st :
  Inv st → _selectedNodes (selectedFidArr_next [] st) = [].
Proof.
  intros HI. destruct (fields_latest st) as [fields|] eqn:Hf.
  - by destruct (selectedFidArr_next_resolved [] fields st
        (Inv_live_subscription _ _ HI) Hf) as (-> & _).
  - rewrite selectedFidArr_next_dropped by done. by apply (inv_snapshot st).
Qed.

(** X6.  In a session [clearSelected] pushes the empty sequence and leaves
    nothing selected, in every mode; the key and the mode stay. *)
Theorem clearSelected_empties snapshot inputs :
  written (clearSelected (session snapshot inputs)) = [[]]
  ∧ returned (clearSelected (session snapshot inputs)) = None
  ∧ selectedFieldGroup (after (clearSelected (session snapshot inputs))) = []
  ∧ selectedField (after (clearSelected (session snapshot inputs))) = None
  ∧ graphNodeSelectionMode (after (clearSelected (session snapshot inputs)))
    = graphNodeSelectionMode (session snapshot inputs)
  ∧ explorationKey (after (clearSelected (session snapshot inputs)))
    = explorationKey (session snapshot inputs).
Proof.
  pose proof (Inv_session snapshot inputs) as HI.
  generalize dependent (session snapshot inputs). intros st HI.
  unfold clearSelected, selectedField, selectedFieldGroup. simpl.
  rewrite push_nil_empties, selectedFidArr_next_mode, selectedFidArr_next_key
    by done.
  done.
Qed.

(** ** Toggling in [SINGLE] mode *)

Lemma selectedFidArr_next_console ids fields st :
  OnSelectedFidArr ∈ liveSubscriptions st →
  fields_latest st = Some fields →
  console_warn (selectedFidArr_next ids st)
  = console_warn st ++ unresolved_spec ids fields.
Proof.
  intros Hlive Hf. unfold selectedFidArr_next, resolution.
  rewrite decide_True, Hf by done. simpl. by rewrite resolveSelection_eq.
Qed.

(** X7.  With the subscription live, a snapshot and [SINGLE] mode:
    toggling the selected identifier returns [false] and empties the
    selection; toggling another identifier returns [true], and selects its
    entity when the snapshot has one, but leaves nothing selected and
    warns when it has none. *)
Theorem toggleNodeSelected_SINGLE x fields st :
  OnSelectedFidArr ∈ liveSubscriptions st →
  fields_latest st = Some fields →
  graphNodeSelectionMode st = SINGLE →
  (fid <$> selectedField st = Some x →
   returned (toggleNodeSelected x st) = Some false
   ∧ selectedFieldGroup (after (toggleNodeSelected x st)) = [])
  ∧ (fid <$> selectedField st ≠ Some x →
     ∀ f, matching x fields = Some f →
     returned (toggleNodeSelected x st) = Some true
     ∧ selectedFieldGroup (after (toggleNodeSelected x st)) = [f])
  ∧ (fid <$> selectedField st ≠ Some x →
     x ∉ fid <$> fields →
     returned (toggleNodeSelected x st) = Some true
     ∧ selectedFieldGroup (after (toggleNodeSelected x st)) = []
     ∧ console_warn (after (toggleNodeSelected x st)) = console_warn st ++ [x]).
Proof.
  intros Hlive Hf Hm. unfold toggleNodeSelected. rewrite Hm.
  rewrite decide_True by done. unfold toggleSingle, selectedFieldGroup.
  split_and!.
  - intros Hsel%selectedField_is_true. rewrite Hsel. simpl.
    by destruct (selectedFidArr_next_resolved [] fields st Hlive Hf) as (-> & _).
  - intros Hsel f Hmatch.
    destruct (selectedField_is x st) eqn:E;
      [by apply selectedField_is_true in E|]. simpl.
    destruct (selectedFidArr_next_resolved [x] fields st Hlive Hf) as (-> & _).
    by rewrite resolved_spec_one, Hmatch.
  - intros Hsel Hx.
    destruct (selectedField_is x st) eqn:E;
      [by apply selectedField_is_true in E|]. simpl.
    destruct (selectedFidArr_next_resolved [x] fields st Hlive Hf) as (-> & _).
    rewrite (selectedFidArr_next_console [x] fields st Hlive Hf).
    rewrite resolved_spec_one. pose proof Hx as ->%matching_None.
    unfold unresolved_spec. by rewrite filter_cons, decide_True.
Qed.

Lemma toggleNodeSelected_SINGLE_witness :
  returned (toggleNodeSelected "z"
    (session (Some [field_a; field_b]) [Call (SetExplorationKey PREDICT)]))
  = Some true
  ∧ selectedFieldGroup (after (toggleNodeSelected "z"
      (session (Some [field_a; field_b]) [Call (SetExplorationKey PREDICT)])))
    = []
  ∧ console_warn (after (toggleNodeSelected "z"
      (session (Some [field_a; field_b]) [Call (SetExplorationKey PREDICT)])))
    = ["z"].
Proof.
  destruct (toggleNodeSelected_SINGLE "z" [field_a; field_b]
    (session (Some [field_a; field_b]) [Call (SetExplorationKey PREDICT)]))
    as (_ & _ & Hunknown).
  - vm_compute. apply list_elem_of_here.
  - reflexivity.
  - reflexivity.
  - apply Hunknown.
    + vm_compute. discriminate.
    + vm_compute. intros Hin.
      repeat (apply elem_of_cons in Hin as [Hin|Hin]; [discriminate|]).
      by apply elem_of_nil in Hin.
Defined.

(** ** What the selection methods leave alone *)

Lemma selectedFidArr_next_frame ids st :
  listeners (selectedFidArr_next ids st) = listeners st
  ∧ layoutMethod (selectedFidArr_next ids st) = layoutMethod st
  ∧ onRenderNode (selectedFidArr_next ids st) = onRenderNode st
  ∧ fields_latest (selectedFidArr_next ids st) = fields_latest st
  ∧ liveReactions (selectedFidArr_next ids st) = liveReactions st
  ∧ liveSubscriptions (selectedFidArr_next ids st) = liveSubscriptions st.
Proof.
  unfold selectedFidArr_next. case_decide; [|done].
  by destruct (resolution _ _) as [[? ?]|].
Qed.

(** A call of [toggleNodeSelected] or [selectNode] is one push or none. *)
Lemma toggleNodeSelected_shape x st :
  (∃ ids r, toggleNodeSelected x st = push ids r st)
  ∨ (∃ r, toggleNodeSelected x st = quiet r st).
Proof.
  unfold toggleNodeSelected, toggleSingle, toggleDouble.
  repeat case_decide; repeat case_match; eauto.
Qed.

Lemma selectNode_shape x st :
  (∃ ids r, selectNode x st = push ids r st)
  ∨ (∃ r, selectNode x st = quiet r st).
Proof.
  unfold selectNode, toggleSingle.
  repeat case_decide; repeat case_match; eauto.
Qed.

(** X8.  No selection method touches the listeners, the layout, the
    renderer, the snapshot or the bindings; only [setExplorationKey]
    changes the key, and only it and [setNodeSelectionMode] change the
    mode. *)
Theorem call_frame c st :
  listeners (after (call c st)) = listeners st
  ∧ layoutMethod (after (call c st)) = layoutMethod st
  ∧ onRenderNode (after (call c st)) = onRenderNode st
  ∧ fields_latest (after (call c st)) = fields_latest st
  ∧ liveReactions (after (call c st)) = liveReactions st
  ∧ liveSubscriptions (after (call c st)) = liveSubscriptions st
  ∧ ((∀ k, c ≠ SetExplorationKey k) →
     explorationKey (after (call c st)) = explorationKey st)
  ∧ ((∀ k, c ≠ SetExplorationKey k) → (∀ m, c ≠ SetNodeSelectionMode m) →
     graphNodeSelectionMode (after (call c st)) = graphNodeSelectionMode st).
Proof.
  assert (∀ ids r,
    listeners (after (push ids r st)) = listeners st
    ∧ layoutMethod (after (push ids r st)) = layoutMethod st
    ∧ onRenderNode (after (push ids r st)) = onRenderNode st
    ∧ fields_latest (after (push ids r st)) = fields_latest st
    ∧ liveReactions (after (push ids r st)) = liveReactions st
    ∧ liveSubscriptions (after (push ids r st)) = liveSubscriptions st
    ∧ explorationKey (after (push ids r st)) = explorationKey st
    ∧ graphNodeSelectionMode (after (push ids r st))
      = graphNodeSelectionMode st) as Hpush.
  { intros ids r. simpl.
    destruct (selectedFidArr_next_frame ids st) as (-> & -> & -> & -> & -> & ->).
    by rewrite selectedFidArr_next_key, selectedFidArr_next_mode. }
  destruct c as [k|m|x|x|]; simpl.
  - unfold assign_explorationKey, onExplorationKeyChange,
      assign_graphNodeSelectionMode, onSelectionModeChange.
    repeat case_decide; simpl; split_and!; try done; by intros H'; destruct (H' k).
  - unfold assign_graphNodeSelectionMode, onSelectionModeChange.
    repeat case_decide; simpl; split_and!; try done;
      by intros _ H'; destruct (H' m).
  - destruct (toggleNodeSelected_shape x st) as [(ids & r & ->)|(r & ->)];
      [by (destruct (Hpush ids r) as (?&?&?&?&?&?&?&?); split_and!) | done].
  - destruct (selectNode_shape x st) as [(ids & r & ->)|(r & ->)];
      [by (destruct (Hpush ids r) as (?&?&?&?&?&?&?&?); split_and!) | done].
  - unfold clearSelected.
    by (destruct (Hpush [] None) as (?&?&?&?&?&?&?&?); split_and!).
Qed.

(** X9.  Handing [setNodeSelectionMode] the current mode, or
    [setExplorationKey] the current key, leaves the store as it is: no
    reaction runs and the selection is not clamped. *)
Theorem assign_same_value st :
  setNodeSelectionMode (graphNodeSelectionMode st) st
  = {| returned := None; written := []; after := st |}
  ∧ setExplorationKey (explorationKey st) st
    = {| returned := None; written := []; after := st |}.
Proof.
  unfold setNodeSelectionMode, setExplorationKey, quiet,
    assign_graphNodeSelectionMode, assign_explorationKey.
  rewrite !decide_False by (by intros [? _]).
  by destruct st.
Qed.

Example DOUBLE_again_keeps_pair :
  fid <$> selectedFieldGroup
    (session (Some [field_a; field_b])
       [Call (SetNodeSelectionMode DOUBLE); Call (ToggleNodeSelected "a");
        Call (ToggleNodeSelected "b"); Call (SetNodeSelectionMode DOUBLE)])
  = ["a"; "b"].
Proof. by vm_compute. Qed.

(** ** The listener registry *)

Lemma listenersOf_setListenersOf e e' cbs ls :
  listenersOf e' (setListenersOf e cbs ls)
  = if decide (e' = e) then cbs else listenersOf e' ls.
Proof. by destruct e, e'. Qed.

(** X10.  After [addEventListener e cb], firing [e] calls the callbacks
    registered before, in their order, and then [cb], each with the node
    fired; firing the other event calls what it called before.  A callback
    registered twice is called twice. *)
Theorem addEventListener_fireEvent e cb node st :
  fireEvent e node (addEventListener e cb st)
  = fireEvent e node st ++ [(cb, node)]
  ∧ (∀ e', e' ≠ e →
       fireEvent e' node (addEventListener e cb st) = fireEvent e' node st)
  ∧ fireEvent e node (addEventListener e cb (addEventListener e cb st))
    = fireEvent e node st ++ [(cb, node); (cb, node)]
  ∧ _selectedNodes (addEventListener e cb st) = _selectedNodes st.
Proof.
  unfold fireEvent, addEventListener. simpl. split_and!.
  - rewrite listenersOf_setListenersOf, decide_True by done.
    by rewrite fmap_app.
  - intros e' Hne. by rewrite listenersOf_setListenersOf, decide_False.
  - rewrite !listenersOf_setListenersOf, !decide_True by done.
    by rewrite !fmap_app, <- app_assoc.
  - done.
Qed.

(** X11.  [removeEventListener e cb] takes every registration of [cb] for
    [e] away and keeps the other callbacks of [e] in their order; the
    other event keeps its callbacks; a callback that is not registered
    leaves the lists as they are. *)
Theorem removeEventListener_fireEvent e cb node st :
  fireEvent e node (removeEventListener e cb st)
  = filter (λ call, call.1 ≠ cb) (fireEvent e node st)
  ∧ (cb ∉ listenersOf e (listeners (removeEventListener e cb st)))
  ∧ (∀ e', e' ≠ e →
       listenersOf e' (listeners (removeEventListener e cb st))
       = listenersOf e' (listeners st))
  ∧ (cb ∉ listenersOf e (listeners st) →
       listeners (removeEventListener e cb st) = listeners st).
Proof.
  unfold fireEvent, removeEventListener. simpl.
  rewrite listenersOf_setListenersOf, decide_True by done.
  split_and!.
  - induction (listenersOf e (listeners st)) as [|c cbs IH]; [done|].
    rewrite fmap_cons, !filter_cons. simpl.
    case_decide; [rewrite fmap_cons|]; by rewrite IH.
  - rewrite list_elem_of_filter. by intros [? _].
  - intros e' Hne. by rewrite listenersOf_setListenersOf, decide_False.
  - intros Hcb. rewrite filter_all by (by intros z Hz ->).
    by destruct e, (listeners st).
Qed.

(** X12.  Registering a callback that was not registered for [e] and
    removing it again gives the store back. *)
Theorem addEventListener_removeEventListener e cb st :
  cb ∉ listenersOf e (listeners st) →
  removeEventListener e cb (addEventListener e cb st) = st.
Proof.
  intros Hcb. unfold removeEventListener, addEventListener. simpl.
  rewrite listenersOf_setListenersOf, decide_True by done.
  rewrite filter_app, filter_all by (by intros z Hz ->).
  rewrite filter_cons, decide_False by (intros Hxx; by apply Hxx).
  rewrite filter_nil, app_nil_r.
  destruct st as [? ? ? ? ? [? ?] ? ? ? ?]. by destruct e.
Qed.

Lemma addEventListener_removeEventListener_witness :
  removeEventListener nodeClick 4
    (addEventListener nodeClick 4
       (session None [AddEventListener nodeClick 3;
                      AddEventListener nodeDoubleClick 4]))
  = session None [AddEventListener nodeClick 3;
                  AddEventListener nodeDoubleClick 4].
Proof.
  apply (addEventListener_removeEventListener nodeClick 4
           (session None [AddEventListener nodeClick 3;
                          AddEventListener nodeDoubleClick 4])).
  vm_compute. intros Hin.
  apply elem_of_cons in Hin as [Hin|Hin]; [discriminate|].
  by apply elem_of_nil in Hin.
Defined.

(** * Layouts, exploration keys, thresholds, prediction cache *)

(** X13.  Every layout has speed 10, no two layouts share a layout type,
    and [LayoutMethods] lists every layout once. *)
Theorem getLayoutConfig_table :
  (∀ layout, speed (getLayoutConfig layout) = 10)
  ∧ (∀ l1 l2,
       layout_type (getLayoutConfig l1) = layout_type (getLayoutConfig l2) →
       l1 = l2)
  ∧ NoDup LayoutMethods
  ∧ (∀ layout, layout ∈ LayoutMethods)
  ∧ startRadius (getLayoutConfig CIRCULAR) = endRadius (getLayoutConfig CIRCULAR).
Proof.
  split_and!.
  - by intros [].
  - by intros [] [].
  - unfold LayoutMethods. repeat (apply NoDup_cons; split);
      [| | | |apply NoDup_nil_2];
      rewrite ?elem_of_cons, elem_of_nil; by intros H; destruct_or?.
  - intros []; unfold LayoutMethods; rewrite !elem_of_cons; auto 10.
  - done.
Qed.

(** X14.  The table of the reaction read backwards: the mode is [DOUBLE]
    for [HYPOTHESIS_TEST] only, [SINGLE] for [CAUSAL_INSIGHT] and
    [PREDICT] only, [MULTIPLE] for [AUTO_VIS] and [CROSS_FILTER] only; no
    key of [ExplorationKeys] gives [DOUBLE]. *)
Theorem selectionModeOf_inverse k :
  (selectionModeOf k = DOUBLE ↔ k = HYPOTHESIS_TEST)
  ∧ (selectionModeOf k = SINGLE ↔ k = CAUSAL_INSIGHT ∨ k = PREDICT)
  ∧ (selectionModeOf k = MULTIPLE ↔ k = AUTO_VIS ∨ k = CROSS_FILTER)
  ∧ (k ∈ ExplorationKeys → selectionModeOf k ≠ DOUBLE).
Proof.
  assert (selectionModeOf k = DOUBLE ↔ k = HYPOTHESIS_TEST) as HD.
  { unfold selectionModeOf. repeat case_decide; split; try done;
      intros ->; by destruct_or?. }
  split_and!; [done | | |].
  - unfold selectionModeOf.
    repeat case_decide; split; first [done | intros; exfalso; tauto].
  - unfold selectionModeOf.
    repeat case_decide; split; try done; try (intros; exfalso; tauto);
      intros [-> | ->]; exfalso;
      unfold AUTO_VIS, CROSS_FILTER, CAUSAL_INSIGHT, PREDICT in *;
      intuition congruence.
  - unfold ExplorationKeys. rewrite !elem_of_cons, elem_of_nil, HD.
    intros H ->. by destruct_or?.
Qed.

(** X15.  [setThreshold] updates one key: the key set reads the value
    given, every other key reads what it read before; of two updates of a
    key the later stands; updates of different keys commute; writing back
    the value read changes nothing. *)
Theorem setThreshold_getThreshold {number : Type} (key key' : ThresholdKey)
    (value value' : number) (thresholds : Thresholds number) :
  getThreshold key' (setThreshold key value thresholds)
  = (if decide (key' = key) then value else getThreshold key' thresholds)
  ∧ setThreshold key value' (setThreshold key value thresholds)
    = setThreshold key value' thresholds
  ∧ (key ≠ key' →
     setThreshold key value (setThreshold key' value' thresholds)
     = setThreshold key' value' (setThreshold key value thresholds))
  ∧ setThreshold key (getThreshold key thresholds) thresholds = thresholds.
Proof.
  destruct thresholds. by destruct key, key'.
Qed.

Lemma runPredictCache_app {R : Type} (ops ops' : list (PredictCacheOp R)) cache :
  runPredictCache (ops ++ ops') cache
  = runPredictCache ops' (runPredictCache ops cache).
Proof. unfold runPredictCache. apply foldl_app. Qed.

Lemma runPredictCache_pushes {R : Type} (results : list R) cache :
  runPredictCache (PushPredictResult <$> results) cache = cache ++ results.
Proof.
  revert cache. induction results as [|r results IH]; intros cache; simpl.
  - by rewrite app_nil_r.
  - unfold runPredictCache in *. simpl. rewrite IH.
    unfold pushPredictResult. by rewrite <- app_assoc.
Qed.

(** X16.  The prediction cache holds the records pushed since it was last
    cleared, in the order pushed: whatever happened before a
    [clearPredictResults] is gone, and without one the pushes follow what
    was there. *)
Theorem predictCache_since_clear {R : Type} (ops : list (PredictCacheOp R))
    (results : list R) (predictCache : list R) :
  runPredictCache (ops ++ ClearPredictResults :: (PushPredictResult <$> results))
    predictCache
  = results
  ∧ runPredictCache (PushPredictResult <$> results) predictCache
    = predictCache ++ results.
Proof.
  split; [|apply runPredictCache_pushes].
  rewrite runPredictCache_app.
  change (ClearPredictResults :: (PushPredictResult <$> results))
    with ([ClearPredictResults] ++ (PushPredictResult <$> results)).
  rewrite runPredictCache_app. by rewrite runPredictCache_pushes.
Qed.

(** * Batch update of functional dependencies *)

Lemma findDepIndex_Some dep deps i :
  findDepIndex dep deps = Some i →
  ∃ d, deps !! i = Some d ∧ dep_fid d = dep_fid dep.
Proof.
  unfold findDepIndex. destruct (list_find _ deps) as [[j d]|] eqn:E; [|done].
  intros [= <-]. apply list_find_Some in E as (Hl & Hd & _). eauto.
Qed.

Lemma findDepIndex_None dep deps :
  findDepIndex dep deps = None ↔ dep_fid dep ∉ dep_fid <$> deps.
Proof.
  unfold findDepIndex. rewrite fmap_None, list_find_None, Forall_forall.
  rewrite list_elem_of_fmap. split.
  - intros H (d & Hd & Hin). by apply (H d).
  - intros H d Hin Hd. apply H. eauto.
Qed.

Lemma findDepIndex_is_Some dep deps :
  dep_fid dep ∈ dep_fid <$> deps → is_Some (findDepIndex dep deps).
Proof.
  intros Hin. destruct (findDepIndex dep deps) eqn:E; [done|].
  by apply findDepIndex_None in E.
Qed.

Lemma elem_of_insert_inv {A : Type} (l : list A) i x y :
  y ∈ <[i:=x]> l → y = x ∨ y ∈ l.
Proof.
  intros [j Hj]%list_elem_of_lookup.
  destruct (decide (i = j)) as [->|Hne].
  - left. pose proof (lookup_lt_Some _ _ _ Hj) as Hlt.
    rewrite length_insert in Hlt.
    rewrite list_lookup_insert_eq in Hj by done. congruence.
  - right. rewrite list_lookup_insert_ne in Hj by done.
    apply list_elem_of_lookup. eauto.
Qed.

Lemma NoDup_fmap_eq {A B : Type} (f : A → B) (l : list A) x y :
  NoDup (f <$> l) → x ∈ l → y ∈ l → f x = f y → x = y.
Proof.
  induction l as [|z l IH]; [by intros _ ?%elem_of_nil|].
  rewrite fmap_cons, NoDup_cons, !elem_of_cons.
  intros [Hz Hnd] [->|Hx] [->|Hy] Hf; try done.
  - exfalso. apply Hz. rewrite Hf. apply list_elem_of_fmap. eauto.
  - exfalso. apply Hz. rewrite <- Hf. apply list_elem_of_fmap. eauto.
  - by apply IH.
Qed.

(** One step of [OVERWRITE_ONLY] on the identifiers. *)
Lemma overwriteStep_fids deps dep :
  dep_fid <$> overwriteStep deps dep
  = if decide (dep_fid dep ∈ dep_fid <$> deps) then dep_fid <$> deps
    else (dep_fid <$> deps) ++ [dep_fid dep].
Proof.
  unfold overwriteStep. destruct (findDepIndex dep deps) as [i|] eqn:E.
  - destruct (findDepIndex_Some _ _ _ E) as (d & Hd & Hfid).
    rewrite decide_True by (apply list_elem_of_fmap; exists d;
      split; [done | by eapply list_elem_of_lookup_2]).
    rewrite list_fmap_insert. apply list_insert_id.
    by rewrite list_lookup_fmap, Hd, <- Hfid.
  - apply findDepIndex_None in E. by rewrite decide_False, fmap_app.
Qed.

Lemma overwriteStep_elem_of deps dep : dep ∈ overwriteStep deps dep.
Proof.
  unfold overwriteStep. destruct (findDepIndex dep deps) as [i|] eqn:E.
  - destruct (findDepIndex_Some _ _ _ E) as (d & Hd & _).
    apply list_elem_of_insert. by eapply lookup_lt_Some.
  - apply elem_of_app. right. by left.
Qed.

Lemma overwriteStep_keeps deps dep d :
  d ∈ deps → dep_fid d ≠ dep_fid dep → d ∈ overwriteStep deps dep.
Proof.
  intros Hin Hne. unfold overwriteStep.
  destruct (findDepIndex dep deps) as [i|] eqn:E.
  - destruct (findDepIndex_Some _ _ _ E) as (d0 & Hd0 & Hfid).
    apply list_elem_of_lookup in Hin as [j Hj].
    apply list_elem_of_lookup. exists j.
    rewrite list_lookup_insert_ne; [done|]. intros ->. congruence.
  - apply elem_of_app. by left.
Qed.

Lemma overwriteStep_from deps dep d :
  d ∈ overwriteStep deps dep → d ∈ deps ∨ d = dep.
Proof.
  unfold overwriteStep. destruct (findDepIndex dep deps) as [i|].
  - intros [->|?]%elem_of_insert_inv; auto.
  - rewrite elem_of_app, list_elem_of_singleton. auto.
Qed.

Lemma foldl_overwriteStep_keeps pv deps d :
  d ∈ deps → (∀ dep, dep ∈ pv → dep_fid d ≠ dep_fid dep) →
  d ∈ foldl overwriteStep deps pv.
Proof.
  revert deps. induction pv as [|dep pv IH]; intros deps Hin Hne; [done|].
  simpl. apply IH.
  - apply overwriteStep_keeps; [done|]. apply Hne. by left.
  - intros dep' Hdep'. apply Hne. by right.
Qed.

Lemma foldl_overwriteStep_fids pv deps :
  (dep_fid <$> deps) `prefix_of` (dep_fid <$> foldl overwriteStep deps pv)
  ∧ (∀ x, x ∈ dep_fid <$> foldl overwriteStep deps pv
          ↔ x ∈ dep_fid <$> deps ∨ x ∈ dep_fid <$> pv)
  ∧ (NoDup (dep_fid <$> deps) →
     NoDup (dep_fid <$> foldl overwriteStep deps pv)).
Proof.
  revert deps. induction pv as [|dep pv IH]; intros deps; simpl.
  - split_and!; [done | | done]. intros x. rewrite elem_of_nil. tauto.
  - destruct (IH (overwriteStep deps dep)) as (Hpre & Hin & Hnd).
    rewrite overwriteStep_fids in Hpre, Hin, Hnd.
    split_and!.
    + etrans; [|exact Hpre]. case_decide; [done|]. by apply prefix_app_r.
    + intros x. rewrite Hin, elem_of_cons. case_decide as Hd.
      * split; [tauto|]. intros [?|[->|?]]; auto.
      * rewrite elem_of_app, list_elem_of_singleton. tauto.
    + intros Hdeps. apply Hnd. case_decide as Hd; [done|].
      apply NoDup_app. split_and!; [done | | apply NoDup_singleton].
      by intros x Hx ->%list_elem_of_singleton.
Qed.

(** X17.  [OVERWRITE_ONLY] keeps the identifiers of the current
    dependencies where they are and appends the new ones: the identifiers
    of the result start with those of the current dependencies, are those
    of the current dependencies and of the preview together, and have no
    duplicate when the current ones have none. *)
Theorem overwrite_only_fids preview functionalDependencies :
  (dep_fid <$> functionalDependencies)
    `prefix_of`
    (dep_fid <$> submittable (Some preview) OVERWRITE_ONLY functionalDependencies)
  ∧ (∀ x, x ∈ dep_fid <$> submittable (Some preview) OVERWRITE_ONLY
                           functionalDependencies
          ↔ x ∈ dep_fid <$> functionalDependencies ∨ x ∈ dep_fid <$> preview)
  ∧ (NoDup (dep_fid <$> functionalDependencies) →
     NoDup (dep_fid <$> submittable (Some preview) OVERWRITE_ONLY
                          functionalDependencies)).
Proof. apply foldl_overwriteStep_fids. Qed.

(** X18.  In [OVERWRITE_ONLY] the last dependency of the preview with a
    given identifier is in the result, and when the current dependencies
    have no duplicate identifier it is the only one of the result with
    that identifier. *)
Theorem overwrite_only_last_wins before dep later functionalDependencies :
  (∀ d, d ∈ later → dep_fid d ≠ dep_fid dep) →
  dep ∈ submittable (Some (before ++ dep :: later)) OVERWRITE_ONLY
          functionalDependencies
  ∧ (NoDup (dep_fid <$> functionalDependencies) →
     ∀ d, d ∈ submittable (Some (before ++ dep :: later)) OVERWRITE_ONLY
                 functionalDependencies →
          dep_fid d = dep_fid dep → d = dep).
Proof.
  intros Hlater. simpl.
  assert (dep ∈ foldl overwriteStep functionalDependencies
                  (before ++ dep :: later)) as Hin.
  { rewrite foldl_app. simpl. apply foldl_overwriteStep_keeps.
    - apply overwriteStep_elem_of.
    - intros d Hd. symmetry. intros Heq. by apply (Hlater d). }
  split; [done|]. intros Hnd d Hd Hfid.
  destruct (foldl_overwriteStep_fids (before ++ dep :: later)
              functionalDependencies) as (_ & _ & Hnd').
  by eapply NoDup_fmap_eq; [apply Hnd', Hnd | | |].
Qed.

(** X19.  In [OVERWRITE_ONLY] a current dependency whose identifier the
    preview does not have is kept, every dependency of the result is a
    current one or one of the preview, and a preview whose identifiers are
    all new and different from each other is appended as it is. *)
Theorem overwrite_only_provenance preview functionalDependencies :
  (∀ d, d ∈ functionalDependencies → dep_fid d ∉ dep_fid <$> preview →
        d ∈ submittable (Some preview) OVERWRITE_ONLY functionalDependencies)
  ∧ (∀ d, d ∈ submittable (Some preview) OVERWRITE_ONLY functionalDependencies →
          d ∈ functionalDependencies ∨ d ∈ preview)
  ∧ (NoDup (dep_fid <$> preview) →
     (∀ x, x ∈ dep_fid <$> preview → x ∉ dep_fid <$> functionalDependencies) →
     submittable (Some preview) OVERWRITE_ONLY functionalDependencies
     = functionalDependencies ++ preview).
Proof.
  simpl. split_and!.
  - intros d Hd Hnot. apply foldl_overwriteStep_keeps; [done|].
    intros dep Hdep Heq. apply Hnot. rewrite Heq.
    apply list_elem_of_fmap. eauto.
  - revert functionalDependencies.
    induction preview as [|dep pv IH]; intros deps d; simpl; [auto|].
    intros [[?| ->]%overwriteStep_from|?]%IH; rewrite elem_of_cons; auto.
  - revert functionalDependencies.
    induction preview as [|dep pv IH]; intros deps Hnd Hnew; simpl;
      [by rewrite app_nil_r|].
    rewrite fmap_cons in Hnd. apply NoDup_cons in Hnd as [Hdep Hnd].
    assert (overwriteStep deps dep = deps ++ [dep]) as ->.
    { unfold overwriteStep.
      assert (findDepIndex dep deps = None) as ->; [|done].
      apply findDepIndex_None, Hnew. rewrite fmap_cons. by left. }
    rewrite IH, <- app_assoc; [done | done |].
    intros x Hx. rewrite fmap_app, elem_of_app.
    intros [Hin|Hin%list_elem_of_singleton].
    + apply (Hnew x); [|done]. rewrite fmap_cons. by right.
    + simpl in Hin. by subst.
Qed.

Lemma overwrite_only_last_wins_witness :
  {| dep_fid := "a"; params := [{| prm_fid := "c"; prm_rest := "" |}] |}
  ∈ submittable
      (Some ([{| dep_fid := "a";
                 params := [{| prm_fid := "b"; prm_rest := "" |}] |}]
             ++ {| dep_fid := "a";
                   params := [{| prm_fid := "c"; prm_rest := "" |}] |}
             :: [{| dep_fid := "b"; params := [] |}]))
      OVERWRITE_ONLY
      [{| dep_fid := "a"; params := [] |}].
Proof.
  apply (overwrite_only_last_wins
           [{| dep_fid := "a";
               params := [{| prm_fid := "b"; prm_rest := "" |}] |}]
           {| dep_fid := "a";
              params := [{| prm_fid := "c"; prm_rest := "" |}] |}
           [{| dep_fid := "b"; params := [] |}]
           [{| dep_fid := "a"; params := [] |}]).
  intros d Hd. apply list_elem_of_singleton in Hd. subst d.
  vm_compute. discriminate.
Defined.

(** ** [FILL_ONLY] *)

Lemma fillParams_snoc ps qs q :
  fillParams ps (qs ++ [q])
  = if decide (Exists (λ p, prm_fid p = prm_fid q) (fillParams ps qs))
    then fillParams ps qs else fillParams ps qs ++ [q].
Proof. unfold fillParams. by rewrite foldl_app. Qed.

Lemma Exists_prm_fid x (ps : list IFunctionalDepParam) :
  Exists (λ p, prm_fid p = x) ps ↔ x ∈ prm_fid <$> ps.
Proof.
  rewrite Exists_exists, list_elem_of_fmap.
  split; intros (p & H1 & H2); exists p; by split.
Qed.

Lemma fillParams_facts overload_params dep_params :
  overload_params `prefix_of` fillParams overload_params dep_params
  ∧ (∀ p, p ∈ fillParams overload_params dep_params →
          p ∈ overload_params ∨ p ∈ dep_params)
  ∧ (∀ q, q ∈ dep_params →
          prm_fid q ∈ prm_fid <$> fillParams overload_params dep_params)
  ∧ (NoDup (prm_fid <$> overload_params) →
     NoDup (prm_fid <$> fillParams overload_params dep_params))
  ∧ fillParams (fillParams overload_params dep_params) dep_params
    = fillParams overload_params dep_params.
Proof.
  assert (∀ ps qs,
    ps `prefix_of` fillParams ps qs
    ∧ (∀ p, p ∈ fillParams ps qs → p ∈ ps ∨ p ∈ qs)
    ∧ (∀ q, q ∈ qs → prm_fid q ∈ prm_fid <$> fillParams ps qs)
    ∧ (NoDup (prm_fid <$> ps) → NoDup (prm_fid <$> fillParams ps qs))) as H4.
  { intros ps qs. induction qs as [|q qs IH] using rev_ind.
    - split_and!; [done | auto | by intros q ?%elem_of_nil | done].
    - destruct IH as (Hpre & Hfrom & Hcov & Hnd).
      rewrite fillParams_snoc. case_decide as Hq.
      + split_and!; [done | | | done].
        * intros p [?|?]%Hfrom; rewrite ?elem_of_app; auto.
        * intros q' [?| ->%list_elem_of_singleton]%elem_of_app; [by apply Hcov|].
          by apply Exists_prm_fid.
      + split_and!.
        * by apply prefix_app_r.
        * intros p. rewrite !elem_of_app.
          intros [[?|?]%Hfrom|?]; auto.
        * intros q'. rewrite fmap_app, !elem_of_app.
          intros [?| ->%list_elem_of_singleton]; [left; by apply Hcov|].
          right. by left.
        * intros Hps. rewrite fmap_app. apply NoDup_app.
          split_and!; [by apply Hnd | | apply NoDup_singleton].
          intros x Hx ->%list_elem_of_singleton.
          by apply Hq, Exists_prm_fid. }
  destruct (H4 overload_params dep_params) as (H1 & H2 & H3 & Hnd).
  split_and!; try done.
  assert (∀ ps qs, (∀ q, q ∈ qs → prm_fid q ∈ prm_fid <$> ps) →
                   fillParams ps qs = ps) as Hid.
  { intros ps qs. induction qs as [|q qs IH] using rev_ind; [done|].
    intros Hall. rewrite fillParams_snoc.
    rewrite IH by (intros q' Hq'; apply Hall, elem_of_app; by left).
    rewrite decide_True; [done|]. apply Exists_prm_fid, Hall, elem_of_app.
    right. by left. }
  by apply Hid.
Qed.

(** X20.  Filling parameters: the parameters already there stay in front,
    in their order; every parameter added comes from the dependency of
    the preview; every identifier of a parameter of that dependency is
    present afterwards; no identifier is doubled when none was; filling
    with the same dependency again changes nothing. *)
Theorem fillParams_properties overload_params dep_params :
  overload_params `prefix_of` fillParams overload_params dep_params
  ∧ (∀ p, p ∈ fillParams overload_params dep_params →
          p ∈ overload_params ∨ p ∈ dep_params)
  ∧ (∀ q, q ∈ dep_params →
          prm_fid q ∈ prm_fid <$> fillParams overload_params dep_params)
  ∧ (NoDup (prm_fid <$> overload_params) →
     NoDup (prm_fid <$> fillParams overload_params dep_params))
  ∧ fillParams (fillParams overload_params dep_params) dep_params
    = fillParams overload_params dep_params.
Proof. apply fillParams_facts. Qed.

Lemma fillStep_fids deps dep : dep_fid <$> fillStep deps dep = dep_fid <$> deps.
Proof.
  unfold fillStep. destruct (findDepIndex dep deps) as [i|]; [|done].
  rewrite (list_fmap_alter dep_fid _ id) by (by apply Forall_true).
  by apply list_alter_id.
Qed.

Lemma fillStep_lookup deps dep i d :
  deps !! i = Some d →
  ∃ d', fillStep deps dep !! i = Some d'
        ∧ dep_fid d' = dep_fid d
        ∧ params d `prefix_of` params d'
        ∧ (∀ p, p ∈ params d' → p ∈ params d ∨ p ∈ params dep).
Proof.
  intros Hd. unfold fillStep. destruct (findDepIndex dep deps) as [j|].
  - destruct (decide (j = i)) as [->|Hne].
    + rewrite list_lookup_alter_eq, Hd. simpl. eexists. split; [done|]. simpl.
      destruct (fillParams_facts (params d) (params dep))
        as (Hpre & Hfrom & _).
      by split_and!.
    + rewrite list_lookup_alter_ne by done. exists d. split_and!; auto.
  - exists d. split_and!; auto.
Qed.

Lemma foldl_fillStep_lookup pv deps i d :
  deps !! i = Some d →
  ∃ d', foldl fillStep deps pv !! i = Some d'
        ∧ dep_fid d' = dep_fid d
        ∧ params d `prefix_of` params d'
        ∧ (∀ p, p ∈ params d' →
                p ∈ params d ∨ ∃ dep, dep ∈ pv ∧ p ∈ params dep).
Proof.
  revert deps d. induction pv as [|dep pv IH]; intros deps d Hd; simpl.
  - exists d. split_and!; auto.
  - destruct (fillStep_lookup deps dep i d Hd)
      as (d1 & Hd1 & Hfid1 & Hpre1 & Hfrom1).
    destruct (IH _ _ Hd1) as (d' & Hd' & Hfid' & Hpre' & Hfrom').
    exists d'. split_and!; [done | congruence | by etrans |].
    intros p [Hp|(dep' & Hin & Hp)]%Hfrom'.
    + apply Hfrom1 in Hp as [?|Hp]; [by left|].
      right. exists dep. split; [by left | done].
    + right. exists dep'. split; [by right | done].
Qed.

Lemma foldl_fillStep_fids pv deps :
  dep_fid <$> foldl fillStep deps pv = dep_fid <$> deps.
Proof.
  revert deps. induction pv as [|dep pv IH]; intros deps; [done|].
  simpl. by rewrite IH, fillStep_fids.
Qed.

(** X21.  [FILL_ONLY] adds and removes no dependency: the identifiers of
    the result are those of the current dependencies, in place; each
    dependency keeps its parameters in front, and what is added to them
    are parameters of dependencies of the preview. *)
Theorem fill_only_structure preview functionalDependencies :
  dep_fid <$> submittable (Some preview) FILL_ONLY functionalDependencies
  = dep_fid <$> functionalDependencies
  ∧ length (submittable (Some preview) FILL_ONLY functionalDependencies)
    = length functionalDependencies
  ∧ (∀ i d, functionalDependencies !! i = Some d →
       ∃ d', submittable (Some preview) FILL_ONLY functionalDependencies !! i
             = Some d'
             ∧ dep_fid d' = dep_fid d
             ∧ params d `prefix_of` params d'
             ∧ (∀ p, p ∈ params d' →
                     p ∈ params d ∨ ∃ dep, dep ∈ preview ∧ p ∈ params dep)).
Proof.
  simpl. split_and!.
  - apply foldl_fillStep_fids.
  - rewrite <- (length_fmap dep_fid), foldl_fillStep_fids. apply length_fmap.
  - intros i d. apply foldl_fillStep_lookup.
Qed.

(** X22.  In [FILL_ONLY] a preview none of whose identifiers is among the
    current dependencies changes nothing. *)
Theorem fill_only_unknown_ignored preview functionalDependencies :
  (∀ dep, dep ∈ preview → dep_fid dep ∉ dep_fid <$> functionalDependencies) →
  submittable (Some preview) FILL_ONLY functionalDependencies
  = functionalDependencies.
Proof.
  simpl. induction preview as [|dep pv IH]; intros Hnew; [done|].
  simpl. unfold fillStep at 2.
  assert (findDepIndex dep functionalDependencies = None) as ->.
  { apply findDepIndex_None, Hnew. by left. }
  apply IH. intros dep' Hdep'. apply Hnew. by right.
Qed.

Lemma fill_only_unknown_ignored_witness :
  submittable
    (Some [{| dep_fid := "b";
              params := [{| prm_fid := "a"; prm_rest := "" |}] |}])
    FILL_ONLY
    [{| dep_fid := "a"; params := [] |}]
  = [{| dep_fid := "a"; params := [] |}].
Proof.
  apply (fill_only_unknown_ignored
           [{| dep_fid := "b";
               params := [{| prm_fid := "a"; prm_rest := "" |}] |}]
           [{| dep_fid := "a"; params := [] |}]).
  intros dep Hdep. apply list_elem_of_singleton in Hdep. subst dep.
  vm_compute. intros Hin. apply list_elem_of_singleton in Hin. discriminate.
Defined.

Lemma findDepIndex_fids dep deps deps' :
  dep_fid <$> deps = dep_fid <$> deps' →
  findDepIndex dep deps = findDepIndex dep deps'.
Proof.
  revert deps'. unfold findDepIndex.
  induction deps as [|d deps IH]; intros [|d' deps'] Heq; try done.
  rewrite !fmap_cons in Heq. injection Heq as Hd Heq. simpl.
  rewrite Hd. case_decide; [done|].
  specialize (IH deps' Heq).
  destruct (list_find _ deps) as [[? ?]|], (list_find _ deps') as [[? ?]|];
    simpl in *; congruence.
Qed.

(** X23.  In [FILL_ONLY], for a dependency of the preview whose identifier
    a current dependency has, the first current dependency with that
    identifier has, in the result, a parameter for every parameter
    identifier of the preview's dependency. *)
Theorem fill_only_covers before dep later functionalDependencies i :
  findDepIndex dep functionalDependencies = Some i →
  ∃ d', submittable (Some (before ++ dep :: later)) FILL_ONLY
          functionalDependencies !! i = Some d'
        ∧ dep_fid d' = dep_fid dep
        ∧ (∀ q, q ∈ params dep → prm_fid q ∈ prm_fid <$> params d').
Proof.
  intros Hi. simpl. rewrite foldl_app. simpl.
  set (deps1 := foldl fillStep functionalDependencies before).
  assert (findDepIndex dep deps1 = Some i) as Hi1.
  { rewrite <- Hi. apply findDepIndex_fids, foldl_fillStep_fids. }
  destruct (findDepIndex_Some _ _ _ Hi1) as (d1 & Hd1 & Hfid1).
  assert (fillStep deps1 dep !! i
          = Some {| dep_fid := dep_fid d1;
                    params := fillParams (params d1) (params dep) |}) as Hd2.
  { unfold fillStep. rewrite Hi1, list_lookup_alter_eq, Hd1. done. }
  destruct (foldl_fillStep_lookup later _ _ _ Hd2)
    as (d' & Hd' & Hfid' & Hpre' & _).
  exists d'. split_and!; [done | simpl in Hfid'; congruence |].
  intros q Hq. simpl in Hpre'.
  destruct (fillParams_facts (params d1) (params dep))
    as (_ & _ & Hcov & _).
  destruct Hpre' as [k ->]. rewrite fmap_app, elem_of_app. left.
  by apply Hcov.
Qed.

Lemma fill_only_covers_witness :
  ∃ d', submittable
          (Some ([] ++ {| dep_fid := "a";
                          params := [{| prm_fid := "b"; prm_rest := "" |}] |}
                 :: []))
          FILL_ONLY
          [{| dep_fid := "a"; params := [] |}] !! 0 = Some d'
        ∧ dep_fid d' = "a"
        ∧ (∀ q, q ∈ [{| prm_fid := "b"; prm_rest := "" |}] →
                prm_fid q ∈ prm_fid <$> params d').
Proof.
  apply (fill_only_covers []
           {| dep_fid := "a";
              params := [{| prm_fid := "b"; prm_rest := "" |}] |}
           [] [{| dep_fid := "a"; params := [] |}] 0).
  reflexivity.
Defined.

(** * The detection request of [FDBatch] *)

(** * The selection along a session and after teardown *)

Lemma step_after_teardown i st :
  liveReactions st = [] → liveSubscriptions st = [] →
  liveReactions (after (step i st)) = []
  ∧ liveSubscriptions (after (step i st)) = []
  ∧ _selectedNodes (after (step i st)) = _selectedNodes st.
Proof.
  intros Hr Hs.
  assert (∀ ids, selectedFidArr_next ids st = st) as Hnext.
  { intros ids. unfold selectedFidArr_next. rewrite Hs.
    rewrite decide_False; [done|]. by intros ?%elem_of_nil. }
  destruct i as [[k|m|x|x|]|e cb|e cb|fields|]; simpl;
    unfold assign_explorationKey, onExplorationKeyChange,
      assign_graphNodeSelectionMode, onFieldsChange, onMergedPagChange,
      toggleNodeSelected, selectNode, toggleSingle, toggleDouble,
      clearSelected, push, quiet, selectedFieldGroup;
    rewrite ?Hr, ?Hs;
    repeat (rewrite decide_False by (by intros [_ ?%elem_of_nil]
                                     || by intros ?%elem_of_nil));
    repeat case_decide; repeat case_match; simpl; rewrite ?Hnext; done.
Qed.

(** X2.  After [destroy], whatever is called and whatever the upstream
    store pushes, in any number, the selection stays what it was when
    [destroy] was called, and nothing becomes live again. *)
Theorem selection_frozen_after_destroy inputs st :
  _selectedNodes (run inputs (destroy st).2) = _selectedNodes st
  ∧ liveReactions (run inputs (destroy st).2) = []
  ∧ liveSubscriptions (run inputs (destroy st).2) = [].
Proof.
  pose proof (destroy_liveReactions st) as Hr.
  pose proof (destroy_liveSubscriptions st) as Hs.
  assert (_selectedNodes (destroy st).2 = _selectedNodes st) as <- by done.
  generalize dependent (destroy st).2. intros st' Hr Hs.
  revert st' Hr Hs. induction inputs as [|i inputs IH]; intros st' Hr Hs;
    [done|].
  simpl. destruct (step_after_teardown i st' Hr Hs) as (Hr' & Hs' & <-).
  by apply IH.
Qed.

(** * Calls that share an action *)

Lemma selectedFidArr_next_NoDup ids st :
  NoDup (fid <$> _selectedNodes st) → NoDup ids →
  NoDup (fid <$> _selectedNodes (selectedFidArr_next ids st)).
Proof.
  intros Hsel Hids. unfold selectedFidArr_next, resolution, withLatestFrom.
  case_decide; [|done]. destruct (fields_latest st) as [fields|]; [|done].
  rewrite resolveSelection_eq. simpl. by apply resolved_spec_NoDup.
Qed.

Lemma onSelectionModeChange_NoDup st :
  NoDup (fid <$> _selectedNodes st) →
  NoDup (fid <$> _selectedNodes (onSelectionModeChange st)).
Proof.
  intros Hsel. unfold onSelectionModeChange. repeat case_decide; simpl.
  - rewrite fmap_drop. eapply sublist_NoDup; [done | apply sublist_drop].
  - done.
  - apply NoDup_nil_2.
Qed.

Lemma onSelectionModeChange_frame st :
  liveReactions (onSelectionModeChange st) = liveReactions st
  ∧ liveSubscriptions (onSelectionModeChange st) = liveSubscriptions st
  ∧ fields_latest (onSelectionModeChange st) = fields_latest st.
Proof. unfold onSelectionModeChange. by repeat case_decide. Qed.

(** What a method pushes has no duplicate when the selection has none. *)
Lemma call_written_NoDup c st ids :
  NoDup (fid <$> _selectedNodes st) → ids ∈ written (call c st) → NoDup ids.
Proof.
  intros Hsel. destruct c as [k|m|x|x|]; simpl;
    try (by intros ?%elem_of_nil).
  - unfold toggleNodeSelected. repeat case_decide.
    + by intros [? _]%toggleSingle_written.
    + unfold toggleDouble, selectedFieldGroup. case_decide as Hx.
      * simpl. intros ->%list_elem_of_singleton.
        eapply sublist_NoDup; [done|]. apply fmap_sublist, sublist_filter.
      * destruct (_selectedNodes st) as [|f0 [|f1 group]]; simpl.
        -- intros ->%list_elem_of_singleton. apply NoDup_singleton.
        -- intros ->%list_elem_of_singleton.
           apply NoDup_cons. split; [|apply NoDup_singleton].
           intros Heq%list_elem_of_singleton. apply Hx. by left.
        -- by intros ?%elem_of_nil.
    + simpl. intros ->%list_elem_of_singleton. by apply toggleDraft_NoDup.
    + by intros ?%elem_of_nil.
  - unfold selectNode. repeat case_decide.
    + by intros [? _]%toggleSingle_written.
    + simpl. intros ->%list_elem_of_singleton. by apply selectDraft_NoDup.
    + by intros ?%elem_of_nil.
  - intros ->%list_elem_of_singleton. apply NoDup_nil_2.
Qed.

(** Outside [DOUBLE] mode the cap follows from the shape of the pushes. *)
Lemma call_written_cap c st ids :
  graphNodeSelectionMode st ≠ DOUBLE → ids ∈ written (call c st) →
  withinCap (graphNodeSelectionMode st) (length ids).
Proof.
  intros Hm. destruct c as [k|m|x|x|]; simpl;
    try (by intros ?%elem_of_nil).
  - unfold toggleNodeSelected. repeat case_decide; try done.
    + intros [_ ?]%toggleSingle_written. cap_cases.
    + intros _. cap_cases.
    + by intros ?%elem_of_nil.
  - unfold selectNode. repeat case_decide.
    + intros [_ ?]%toggleSingle_written. cap_cases.
    + intros _. cap_cases.
    + by intros ?%elem_of_nil.
  - intros ->%list_elem_of_singleton. apply withinCap_0.
Qed.

Lemma call_NoDup c st :
  NoDup (fid <$> _selectedNodes st) →
  NoDup (fid <$> _selectedNodes (after (call c st))).
Proof.
  intros Hsel.
  assert (∀ ids r, call c st = push ids r st →
    NoDup (fid <$> _selectedNodes (after (call c st)))) as Hpush.
  { intros ids r Heq. rewrite Heq. simpl. apply selectedFidArr_next_NoDup; [done|].
    apply (call_written_NoDup c st); [done|]. rewrite Heq. by left. }
  destruct c as [k|m|x|x|]; simpl in *.
  - unfold assign_explorationKey, onExplorationKeyChange,
      assign_graphNodeSelectionMode.
    repeat case_decide; try done; by apply onSelectionModeChange_NoDup.
  - unfold assign_graphNodeSelectionMode.
    case_decide; [by apply onSelectionModeChange_NoDup | done].
  - destruct (toggleNodeSelected_shape x st) as [(ids & r & Heq)|(r & Heq)];
      [by eapply Hpush | by rewrite Heq].
  - destruct (selectNode_shape x st) as [(ids & r & Heq)|(r & Heq)];
      [by eapply Hpush | by rewrite Heq].
  - by eapply Hpush.
Qed.

Lemma step_NoDup i st :
  NoDup (fid <$> _selectedNodes st) →
  NoDup (fid <$> _selectedNodes (after (step i st))).
Proof.
  intros Hsel. destruct i as [c|e cb|e cb|fields|]; simpl; try done.
  - by apply call_NoDup.
  - unfold onFieldsChange. by case_decide.
  - unfold onMergedPagChange. case_decide; [|done]. simpl.
    apply selectedFidArr_next_NoDup; [done | apply NoDup_nil_2].
Qed.

Lemma callInAction_ok c a m ids :
  NoDup (fid <$> _selectedNodes (store a)) →
  NoDup (fid <$> _selectedNodes (store (callInAction c a).2))
  ∧ ((m, ids) ∈ (callInAction c a).1.2 →
     NoDup ids ∧ (m ≠ DOUBLE → withinCap m (length ids))).
Proof.
  intros Hsel.
  assert (∀ c', (callInAction c a).1.2
                = (λ ids, (graphNodeSelectionMode (store a), ids))
                  <$> written (call c' (store a)) →
    (m, ids) ∈ (callInAction c a).1.2 →
    NoDup ids ∧ (m ≠ DOUBLE → withinCap m (length ids))) as Hw.
  { intros c' -> (ids' & [= -> ->] & Hin)%list_elem_of_fmap. split.
    - by eapply call_written_NoDup.
    - intros Hm. by eapply call_written_cap. }
  destruct c as [k|m'|x|x|].
  - split; [|by intros ?%elem_of_nil]. simpl.
    unfold set_explorationKey, schedule_. by repeat case_decide.
  - split; [|by intros ?%elem_of_nil]. simpl.
    unfold set_graphNodeSelectionMode, schedule_. by repeat case_decide.
  - split; [apply (call_NoDup (ToggleNodeSelected x)), Hsel
           | by apply (Hw (ToggleNodeSelected x))].
  - split; [apply (call_NoDup (SelectNode x)), Hsel
           | by apply (Hw (SelectNode x))].
  - split; [apply (call_NoDup ClearSelected), Hsel
           | by apply (Hw ClearSelected)].
Qed.

Lemma runReaction__NoDup r seen a :
  NoDup (fid <$> _selectedNodes (store a)) →
  NoDup (fid <$> _selectedNodes (store (runReaction_ r (seen, a)).2)).
Proof.
  intros Hsel. destruct r; simpl; [done | |].
  - case_decide; [|done]. simpl.
    unfold set_graphNodeSelectionMode, schedule_. by repeat case_decide.
  - case_decide; [|done]. simpl. by apply onSelectionModeChange_NoDup.
Qed.

Lemma runReactionsHelper_S n seen a :
  runReactionsHelper (S n) seen a
  = match pendingReactions a with
    | [] => a
    | remainingReactions =>
        runReactionsHelper n
          (foldl (λ sa r, runReaction_ r sa)
                 (seen, {| store := store a; pendingReactions := [] |})
                 remainingReactions).1
          (foldl (λ sa r, runReaction_ r sa)
                 (seen, {| store := store a; pendingReactions := [] |})
                 remainingReactions).2
    end.
Proof.
  cbn [runReactionsHelper]. destruct (pendingReactions a) as [|r rs]; [done|].
  by destruct (foldl _ _ (r :: rs)).
Qed.

Lemma foldl_runReaction__NoDup rs sa :
  NoDup (fid <$> _selectedNodes (store sa.2)) →
  NoDup (fid <$> _selectedNodes
           (store (foldl (λ sa r, runReaction_ r sa) sa rs).2)).
Proof.
  revert sa. induction rs as [|r rs IH]; intros [seen a] Hsel; [done|].
  cbn [foldl]. apply IH. by apply runReaction__NoDup.
Qed.

Lemma runReactionsHelper_NoDup iterations seen a :
  NoDup (fid <$> _selectedNodes (store a)) →
  NoDup (fid <$> _selectedNodes
                   (store (runReactionsHelper iterations seen a))).
Proof.
  revert seen a. induction iterations as [|n IH]; intros seen a Hsel.
  - simpl. by destruct (pendingReactions a).
  - rewrite runReactionsHelper_S.
    destruct (pendingReactions a) as [|r rs] eqn:Hp; [done|].
    apply IH. by apply foldl_runReaction__NoDup.
Qed.

Lemma inOneAction_ok cs st :
  NoDup (fid <$> _selectedNodes st) →
  NoDup (fid <$> _selectedNodes (inOneAction cs st).2)
  ∧ (∀ m ids, (m, ids) ∈ (inOneAction cs st).1 →
       NoDup ids ∧ (m ≠ DOUBLE → withinCap m (length ids))).
Proof.
  intros Hsel. unfold inOneAction.
  assert (∀ cs' wa,
    NoDup (fid <$> _selectedNodes (store wa.2)) →
    (∀ m ids, (m, ids) ∈ wa.1 →
       NoDup ids ∧ (m ≠ DOUBLE → withinCap m (length ids))) →
    NoDup (fid <$> _selectedNodes (store
      (foldl (λ wa c, let '(_, w, a') := callInAction c wa.2 in
                      (wa.1 ++ w, a')) wa cs').2))
    ∧ (∀ m ids, (m, ids) ∈
         (foldl (λ wa c, let '(_, w, a') := callInAction c wa.2 in
                         (wa.1 ++ w, a')) wa cs').1 →
       NoDup ids ∧ (m ≠ DOUBLE → withinCap m (length ids)))) as Hfold.
  { induction cs' as [|c cs' IH]; intros [ws a] Ha Hws; [done|].
    simpl. apply IH.
    - destruct (callInAction c a) as [[r w] a'] eqn:E. simpl.
      pose proof (callInAction_ok c a "" [] Ha) as [H1 _].
      by rewrite E in H1.
    - intros m ids. destruct (callInAction c a) as [[r w] a'] eqn:E. simpl.
      intros [Hin|Hin]%elem_of_app; [by apply Hws|].
      pose proof (callInAction_ok c a m ids Ha) as [_ H2].
      rewrite E in H2. by apply H2. }
  destruct (Hfold cs ([], {| store := st; pendingReactions := [] |}))
    as [Hs Hw]; [done | by intros m ids ?%elem_of_nil |].
  destruct (foldl _ _ cs) as [ws a]. cbv beta iota. cbn [fst snd] in *.
  split; [by apply runReactionsHelper_NoDup | done].
Qed.

Lemma play_NoDup snapshot events :
  NoDup (fid <$> _selectedNodes (play snapshot events)).
Proof.
  unfold play, runEvents.
  assert (NoDup (fid <$> _selectedNodes (new_CausalViewStore snapshot)))
    as H0 by apply NoDup_nil_2.
  revert H0. generalize (new_CausalViewStore snapshot).
  induction events as [|e events IH]; intros st Hst; [done|].
  simpl. apply IH. destruct e as [i|cs]; simpl.
  - by apply step_NoDup.
  - by apply inOneAction_ok.
Qed.

(** A run of inputs that are each an action of their own is a session. *)
Lemma play_singles snapshot events :
  forallb isSingle events = true →
  ∃ inputs, events = Single <$> inputs
            ∧ play snapshot events = session snapshot inputs.
Proof.
  unfold play, session. generalize (new_CausalViewStore snapshot).
  induction events as [|e events IH]; intros st Hall.
  - by exists [].
  - simpl in Hall. apply andb_prop in Hall as [He Hall].
    destruct e as [i|cs]; [|done].
    destruct (IH (after (step i st)) Hall) as (inputs & -> & Heq).
    exists (i :: inputs). by split.
Qed.

(** C1, as the store has it.  Whatever has happened to the store, calls
    sharing an action included, every sequence written to
    [selectedFidArr$] is free of duplicates, and it is within the cap of
    the mode active at the write when that mode is not [DOUBLE]; it is
    within the cap in [DOUBLE] mode too when every call so far has been an
    action of its own. *)
Theorem written_nodup_cap_by_action snapshot events e m ids :
  (m, ids) ∈ writesOf e (play snapshot events) →
  NoDup ids
  ∧ (m ≠ DOUBLE → withinCap m (length ids))
  ∧ (forallb isSingle (events ++ [e]) = true → withinCap m (length ids)).
Proof.
  intros Hin. pose proof (play_NoDup snapshot events) as Hsel.
  assert (NoDup ids ∧ (m ≠ DOUBLE → withinCap m (length ids))) as [Hnd Hcap].
  { destruct e as [i|cs]; simpl in Hin.
    - apply list_elem_of_fmap in Hin as (ids' & [= -> ->] & Hin).
      destruct i as [c|ev cb|ev cb|fields|]; simpl in Hin;
        try (by apply elem_of_nil in Hin).
      + split; [by eapply call_written_NoDup | intros; by eapply call_written_cap].
      + unfold onMergedPagChange in Hin. case_decide; simpl in Hin;
          [|by apply elem_of_nil in Hin].
        apply list_elem_of_singleton in Hin as ->.
        split; [apply NoDup_nil_2 | intros; apply withinCap_0].
    - by apply (inOneAction_ok cs _ Hsel). }
  split_and!; [done | done |].
  rewrite forallb_app. intros [Hall He]%andb_prop.
  destruct (play_singles snapshot events Hall) as (inputs & _ & Heq).
  destruct e as [i|cs]; [|done]. simpl in Hin. rewrite Heq in Hin.
  apply list_elem_of_fmap in Hin as (ids' & [= -> ->] & Hin).
  by apply (step_written i _ _ (Inv_session snapshot inputs)).
Qed.

Lemma written_nodup_cap_by_action_witness :
  NoDup ["a"; "b"] ∧ withinCap DOUBLE 2.
Proof.
  destruct (written_nodup_cap_by_action (Some [field_a; field_b; field_c])
              [Single (Call (SetExplorationKey HYPOTHESIS_TEST));
               Single (Call (ToggleNodeSelected "a"))]
              (Single (Call (ToggleNodeSelected "b"))) DOUBLE ["a"; "b"])
    as (Hnd & _ & Hcap).
  - vm_compute. apply list_elem_of_here.
  - split; [exact Hnd | apply Hcap; reflexivity].
Defined.

(** C1, as stated, fails when two calls share an action: the reaction
    that clamps the selection runs when the action ends, so with four
    entities selected in [MULTIPLE] mode, [setNodeSelectionMode(DOUBLE)]
    followed by [toggleNodeSelected] of a selected identifier writes three
    identifiers while the mode is [DOUBLE]. *)
Lemma shared_action_exceeds_cap :
  (DOUBLE, ["b"; "c"; "d"])
  ∈ writesOf (Batch [SetNodeSelectionMode DOUBLE; ToggleNodeSelected "a"])
      (play (Some [field_a; field_b; field_c; field_d])
         [Single (Call (ToggleNodeSelected "a"));
          Single (Call (ToggleNodeSelected "b"));
          Single (Call (ToggleNodeSelected "c"));
          Single (Call (ToggleNodeSelected "d"))])
  ∧ ¬ withinCap DOUBLE (length ["b"; "c"; "d"])
  ∧ ¬ (∀ snapshot events e m ids,
         (m, ids) ∈ writesOf e (play snapshot events) →
         NoDup ids ∧ withinCap m (length ids)).
Proof.
  assert ((DOUBLE, ["b"; "c"; "d"])
    ∈ writesOf (Batch [SetNodeSelectionMode DOUBLE; ToggleNodeSelected "a"])
        (play (Some [field_a; field_b; field_c; field_d])
           [Single (Call (ToggleNodeSelected "a"));
            Single (Call (ToggleNodeSelected "b"));
            Single (Call (ToggleNodeSelected "c"));
            Single (Call (ToggleNodeSelected "d"))])) as Hin.
  { vm_compute. apply list_elem_of_here. }
  assert (¬ withinCap DOUBLE (length ["b"; "c"; "d"])) as Hcap.
  { unfold withinCap. simpl. lia. }
  split_and!; [done | done |].
  intros H. apply Hcap. by eapply H.
Qed.

(** X1.  Whatever has happened to the store, calls sharing an action
    included, the selection has no two entities with one identifier.  When
    every call has been an action of its own it is also within the cap of
    the mode: at most one entity in [SINGLE] mode, at most two in [DOUBLE]
    mode, none in [NONE] mode and in any mode outside the enum. *)
Theorem selection_bounds_by_action snapshot events :
  NoDup (fid <$> selectedFieldGroup (play snapshot events))
  ∧ (forallb isSingle events = true →
     withinCap (graphNodeSelectionMode (play snapshot events))
       (length (selectedFieldGroup (play snapshot events)))
     ∧ (graphNodeSelectionMode (play snapshot events) = SINGLE →
        length (selectedFieldGroup (play snapshot events)) ≤ 1)
     ∧ (graphNodeSelectionMode (play snapshot events) = DOUBLE →
        length (selectedFieldGroup (play snapshot events)) ≤ 2)
     ∧ (graphNodeSelectionMode (play snapshot events) ≠ SINGLE →
        graphNodeSelectionMode (play snapshot events) ≠ DOUBLE →
        graphNodeSelectionMode (play snapshot events) ≠ MULTIPLE →
        selectedFieldGroup (play snapshot events) = [])).
Proof.
  split; [apply play_NoDup|]. intros Hall.
  destruct (play_singles snapshot events Hall) as (inputs & _ & ->).
  destruct (Inv_session snapshot inputs) as [_ Hcap _ _ _].
  unfold selectedFieldGroup. split_and!; [done | | |].
  - intros Hm. by rewrite Hm in Hcap.
  - intros Hm. by rewrite Hm in Hcap.
  - intros H1 H2 H3. unfold withinCap, cardinalityCap in Hcap.
    rewrite !decide_False in Hcap by done.
    apply length_zero_iff_nil. lia.
Qed.

(** The cap does not survive a shared action: a selection made in
    [MULTIPLE] mode inside an action that starts and ends in [DOUBLE] mode
    is not clamped, since the mode the reaction sees is the one it kept. *)
Example shared_action_leaves_three_in_DOUBLE :
  graphNodeSelectionMode
    (play (Some [field_a; field_b; field_c])
       [Single (Call (SetNodeSelectionMode DOUBLE));
        Batch [SetNodeSelectionMode MULTIPLE; ToggleNodeSelected "a";
               ToggleNodeSelected "b"; ToggleNodeSelected "c";
               SetNodeSelectionMode DOUBLE]])
  = DOUBLE
  ∧ fid <$> selectedFieldGroup
      (play (Some [field_a; field_b; field_c])
         [Single (Call (SetNodeSelectionMode DOUBLE));
          Batch [SetNodeSelectionMode MULTIPLE; ToggleNodeSelected "a";
                 ToggleNodeSelected "b"; ToggleNodeSelected "c";
                 SetNodeSelectionMode DOUBLE]])
    = ["a"; "b"; "c"].
Proof. by vm_compute. Qed.

Lemma runReactionsHelper_nil iterations seen st :
  runReactionsHelper iterations seen {| store := st; pendingReactions := [] |}
  = {| store := st; pendingReactions := [] |}.
Proof. by destruct iterations. Qed.

Lemma runReactions_mode n seen st :
  runReactionsHelper (S n) seen
    {| store := st; pendingReactions := [OnSelectionMode] |}
  = {| store :=
         if decide (graphNodeSelectionMode st ≠ seen_graphNodeSelectionMode seen)
         then onSelectionModeChange st else st;
       pendingReactions := [] |}.
Proof.
  rewrite runReactionsHelper_S.
  cbn [pendingReactions store foldl runReaction_].
  case_decide; cbn [fst snd]; apply runReactionsHelper_nil.
Qed.

Lemma runReactions_key n seen st :
  runReactionsHelper (S (S n)) seen
    {| store := st; pendingReactions := [OnExplorationKey] |}
  = {| store :=
         if decide (explorationKey st ≠ seen_explorationKey seen)
         then
           if decide (selectionModeOf (explorationKey st)
                      ≠ graphNodeSelectionMode st
                      ∧ OnSelectionMode ∈ liveReactions st)
           then
             if decide (selectionModeOf (explorationKey st)
                        ≠ seen_graphNodeSelectionMode seen)
             then onSelectionModeChange
                    (with_graphNodeSelectionMode
                       (selectionModeOf (explorationKey st)) st)
             else with_graphNodeSelectionMode
                    (selectionModeOf (explorationKey st)) st
           else with_graphNodeSelectionMode
                  (selectionModeOf (explorationKey st)) st
         else st;
       pendingReactions := [] |}.
Proof.
  rewrite runReactionsHelper_S.
  cbn [pendingReactions store foldl runReaction_].
  destruct (decide (explorationKey st ≠ seen_explorationKey seen)) as [Hk|Hk];
    cbn [fst snd]; [|apply runReactionsHelper_nil].
  unfold set_graphNodeSelectionMode, schedule_.
  cbn [store pendingReactions with_graphNodeSelectionMode liveReactions].
  destruct (decide (selectionModeOf (explorationKey st)
                    ≠ graphNodeSelectionMode st)) as [Hm|Hm].
  - destruct (decide (OnSelectionMode ∈ liveReactions st)) as [Hl|Hl].
    + rewrite decide_True by (split; [done | apply not_elem_of_nil]).
      rewrite (decide_True (P := _ ∧ _)) by done.
      cbn [app]. rewrite runReactions_mode. done.
    + rewrite decide_False by (by intros [? _]).
      rewrite (decide_False (P := _ ∧ _)) by (by intros [_ ?]).
      apply runReactionsHelper_nil.
  - rewrite (decide_False (P := _ ∧ _)) by (by intros [? _]).
    apply runReactionsHelper_nil.
Qed.

(** X25.  One call inside an action of its own is the call: it writes
    the same and leaves the same store. *)
Theorem single_call_action c st :
  happen (Batch [c]) st = happen (Single (Call c)) st
  ∧ writesOf (Batch [c]) st = writesOf (Single (Call c)) st.
Proof.
  unfold happen, writesOf, inOneAction, MAX_REACTION_ITERATIONS.
  cbn [foldl fst snd step Nat.sub].
  destruct c as [k|m|x|x|]; cbn [callInAction call pushInAction];
    cbv beta iota; cbn [fst snd app].
  - split; [|done]. cbn [setExplorationKey quiet after].
    unfold set_explorationKey, assign_explorationKey, onExplorationKeyChange,
      assign_graphNodeSelectionMode, schedule_.
    cbn [store pendingReactions with_explorationKey liveReactions
         explorationKey graphNodeSelectionMode].
    destruct (decide (k ≠ explorationKey st)) as [Hk|Hk].
    + destruct (decide (OnExplorationKey ∈ liveReactions st)) as [Hl|Hl].
      * rewrite decide_True by (split; [done | apply not_elem_of_nil]).
        rewrite (decide_True (P := k ≠ explorationKey st ∧ _)) by done.
        cbn [app]. rewrite runReactions_key.
        cbn [store seen_explorationKey seen_graphNodeSelectionMode
             explorationKey graphNodeSelectionMode liveReactions
             with_explorationKey].
        rewrite decide_True by done.
        case_decide as Hc; [|done]. destruct Hc as [Hc _].
        by rewrite decide_True.
      * rewrite decide_False by (by intros [? _]).
        rewrite (decide_False (P := k ≠ explorationKey st ∧ _))
          by (by intros [_ ?]).
        by rewrite runReactionsHelper_nil.
    + rewrite (decide_False (P := k ≠ explorationKey st ∧ _))
        by (by intros [? _]).
      by rewrite runReactionsHelper_nil.
  - split; [|done]. cbn [setNodeSelectionMode quiet after].
    unfold set_graphNodeSelectionMode, assign_graphNodeSelectionMode, schedule_.
    cbn [store pendingReactions with_graphNodeSelectionMode liveReactions].
    destruct (decide (m ≠ graphNodeSelectionMode st)) as [Hm|Hm].
    + destruct (decide (OnSelectionMode ∈ liveReactions st)) as [Hl|Hl].
      * rewrite decide_True by (split; [done | apply not_elem_of_nil]).
        rewrite (decide_True (P := _ ∧ _)) by done.
        cbn [app]. rewrite runReactions_mode.
        cbn [store seen_graphNodeSelectionMode graphNodeSelectionMode
             with_graphNodeSelectionMode].
        by rewrite decide_True.
      * rewrite decide_False by (by intros [? _]).
        rewrite (decide_False (P := _ ∧ _)) by (by intros [_ ?]).
        by rewrite runReactionsHelper_nil.
    + rewrite (decide_False (P := _ ∧ _)) by (by intros [? _]).
      by rewrite runReactionsHelper_nil.
  - by rewrite runReactionsHelper_nil.
  - by rewrite runReactionsHelper_nil.
  - by rewrite runReactionsHelper_nil.
Qed.

(** * The reset on a change of the merged model *)

(** C8.  On any store whose reaction on [mergedPag] and whose subscription
    are live, and which holds a snapshot unless nothing is selected: a
    change of [mergedPag] pushes the empty sequence, and whatever was
    selected and whatever the mode is, nothing is selected afterwards; the
    mode and the key stay. *)
Theorem mergedPag_change_resets_store st :
  OnMergedPag ∈ liveReactions st →
  OnSelectedFidArr ∈ liveSubscriptions st →
  (fields_latest st = None → _selectedNodes st = []) →
  written (step MergedPagChanged st) = [[]]
  ∧ selectedFieldGroup (after (step MergedPagChanged st)) = []
  ∧ selectedField (after (step MergedPagChanged st)) = None
  ∧ graphNodeSelectionMode (after (step MergedPagChanged st))
    = graphNodeSelectionMode st
  ∧ explorationKey (after (step MergedPagChanged st)) = explorationKey st.
Proof.
  intros Hr Hs Hsnap. simpl.
  unfold onMergedPagChange, selectedField, selectedFieldGroup.
  rewrite decide_True by done. simpl.
  assert (_selectedNodes (selectedFidArr_next [] st) = []) as Hn.
  { destruct (fields_latest st) as [fields|] eqn:Hf.
    - by destruct (selectedFidArr_next_resolved [] fields st Hs Hf) as (-> & _).
    - rewrite selectedFidArr_next_dropped by done. by apply Hsnap. }
  by rewrite Hn, selectedFidArr_next_mode, selectedFidArr_next_key.
Qed.

Lemma mergedPag_change_resets_store_witness :
  selectedFieldGroup
    (session (Some [field_a; field_b; field_c])
       [Call (SetExplorationKey HYPOTHESIS_TEST); Call (ToggleNodeSelected "a");
        Call (ToggleNodeSelected "b")])
  = [field_a; field_b]
  ∧ written (step MergedPagChanged
      (session (Some [field_a; field_b; field_c])
         [Call (SetExplorationKey HYPOTHESIS_TEST);
          Call (ToggleNodeSelected "a"); Call (ToggleNodeSelected "b")]))
    = [[]]
  ∧ selectedFieldGroup (after (step MergedPagChanged
      (session (Some [field_a; field_b; field_c])
         [Call (SetExplorationKey HYPOTHESIS_TEST);
          Call (ToggleNodeSelected "a"); Call (ToggleNodeSelected "b")])))
    = []
  ∧ graphNodeSelectionMode (after (step MergedPagChanged
      (session (Some [field_a; field_b; field_c])
         [Call (SetExplorationKey HYPOTHESIS_TEST);
          Call (ToggleNodeSelected "a"); Call (ToggleNodeSelected "b")])))
    = DOUBLE.
Proof.
  destruct (mergedPag_change_resets_store
    (session (Some [field_a; field_b; field_c])
       [Call (SetExplorationKey HYPOTHESIS_TEST); Call (ToggleNodeSelected "a");
        Call (ToggleNodeSelected "b")])) as (Hw & Hsel & _ & Hm & _).
  - vm_compute. apply list_elem_of_here.
  - vm_compute. apply list_elem_of_here.
  - vm_compute. discriminate.
  - split_and!; [reflexivity | exact Hw | exact Hsel | exact Hm].
Defined.

(** * Writes while the upstream store has no entity *)

Lemma resolved_spec_no_entity ids :
  resolved_spec ids [] = [] ∧ unresolved_spec ids [] = ids.
Proof.
  split.
  - unfold resolved_spec. by induction ids.
  - unfold unresolved_spec. apply filter_all. intros x _. apply not_elem_of_nil.
Qed.

Lemma step_holds_snapshot i st :
  is_Some (fields_latest st) → is_Some (fields_latest (after (step i st))).
Proof.
  intros Hf.
  assert (∀ ids, is_Some (fields_latest (selectedFidArr_next ids st))) as Hnext.
  { intros ids. by destruct (selectedFidArr_next_frame ids st)
      as (_ & _ & _ & -> & _). }
  destruct i as [[k|m|x|x|]|e cb|e cb|fields|]; simpl; try done.
  - unfold assign_explorationKey, onExplorationKeyChange,
      assign_graphNodeSelectionMode, onSelectionModeChange.
    by repeat case_decide.
  - unfold assign_graphNodeSelectionMode, onSelectionModeChange.
    by repeat case_decide.
  - destruct (toggleNodeSelected_shape x st) as [(ids & r & ->)|(r & ->)];
      [apply Hnext | done].
  - destruct (selectNode_shape x st) as [(ids & r & ->)|(r & ->)];
      [apply Hnext | done].
  - unfold onFieldsChange. by case_decide.
  - unfold onMergedPagChange. case_decide; [apply Hnext | done].
Qed.

Lemma session_holds_snapshot fields0 inputs :
  is_Some (fields_latest (session (toStream_fields fields0) inputs)).
Proof.
  unfold session.
  assert (is_Some (fields_latest (new_CausalViewStore (toStream_fields fields0))))
    as H0 by done.
  revert H0. generalize (new_CausalViewStore (toStream_fields fields0)).
  induction inputs as [|i inputs IH]; intros st Hst; [done|].
  simpl. by apply IH, step_holds_snapshot.
Qed.

(** C4.  With the entity stream delivering the current list when the
    pipeline subscribes, a session holds a snapshot at every moment, so a
    write is always resolved and never waits or is dropped.  As long as
    the snapshot held has no entity, what a write resolves to is the empty
    selection, each identifier written being reported through
    [console.warn]. *)
Theorem write_before_entities fields0 inputs ids :
  (∃ fields,
     fields_latest (session (toStream_fields fields0) inputs) = Some fields
     ∧ resolution ids (fields_latest (session (toStream_fields fields0) inputs))
       = Some (resolved_spec ids fields, unresolved_spec ids fields)
     ∧ selectedFieldGroup
         (selectedFidArr_next ids (session (toStream_fields fields0) inputs))
       = resolved_spec ids fields)
  ∧ (fields_latest (session (toStream_fields fields0) inputs) = Some [] →
     resolution ids (fields_latest (session (toStream_fields fields0) inputs))
     = Some ([], ids)
     ∧ selectedFieldGroup
         (selectedFidArr_next ids (session (toStream_fields fields0) inputs))
       = []
     ∧ console_warn
         (selectedFidArr_next ids (session (toStream_fields fields0) inputs))
       = console_warn (session (toStream_fields fields0) inputs) ++ ids).
Proof.
  pose proof (Inv_session (toStream_fields fields0) inputs) as HI.
  pose proof (session_holds_snapshot fields0 inputs) as [fields Hf].
  generalize dependent (session (toStream_fields fields0) inputs).
  intros st HI Hf.
  pose proof (Inv_live_subscription OnSelectedFidArr st HI) as Hlive.
  assert (∀ fs, fields_latest st = Some fs →
    resolution ids (fields_latest st)
    = Some (resolved_spec ids fs, unresolved_spec ids fs)) as Hres.
  { intros fs ->. unfold resolution. simpl. by rewrite resolveSelection_eq. }
  split.
  - exists fields. split_and!; [done | by apply Hres |].
    by destruct (selectedFidArr_next_resolved ids fields st Hlive Hf) as (? & _).
  - intros Hnil. destruct (resolved_spec_no_entity ids) as [Hr Hu].
    split_and!.
    + by rewrite (Hres [] Hnil), Hr, Hu.
    + destruct (selectedFidArr_next_resolved ids [] st Hlive Hnil) as (Hn & _).
      unfold selectedFieldGroup. by rewrite Hn.
    + by rewrite (selectedFidArr_next_console ids [] st Hlive Hnil), Hu.
Qed.

Example first_write_before_entities :
  selectedFieldGroup
    (after (toggleNodeSelected "a" (session (toStream_fields []) [])))
  = []
  ∧ console_warn
      (after (toggleNodeSelected "a" (session (toStream_fields []) [])))
    = ["a"]
  ∧ written (toggleNodeSelected "a" (session (toStream_fields []) []))
    = [["a"]].
Proof. by vm_compute. Qed.

(** * The detection request of [FDBatch] *)

(** X24.  Two detection requests in flight.  When the earlier one is
    through, its [finally] callback included, before the later one
    settles, neither result is taken and the preview stays what it was.
    When the later one settles before the [finally] callback of the
    earlier one has run, or settles first, the result of the later one
    becomes the preview ([[]] if it was rejected) and the earlier one is
    ignored. *)
Theorem detection_race p1 p2 outcome1 outcome2 s :
  p1 ≠ p2 →
  batch_preview
    (onFinally (onSettled p2 outcome2
       (onFinally (onSettled p1 outcome1
          (generateFDFromAutoDetection p2
             (generateFDFromAutoDetection p1 s))))))
  = batch_preview s
  ∧ batch_preview
      (onFinally (onFinally (onSettled p2 outcome2
         (onSettled p1 outcome1
            (generateFDFromAutoDetection p2
               (generateFDFromAutoDetection p1 s))))))
    = Some (default [] outcome2)
  ∧ batch_preview
      (onFinally (onFinally (onSettled p1 outcome1
         (onSettled p2 outcome2
            (generateFDFromAutoDetection p2
               (generateFDFromAutoDetection p1 s))))))
    = Some (default [] outcome2)
  ∧ batch_preview
      (onFinally (onSettled p1 outcome1
         (onFinally (onSettled p2 outcome2
            (generateFDFromAutoDetection p2
               (generateFDFromAutoDetection p1 s))))))
    = Some (default [] outcome2).
Proof.
  intros Hne. unfold onFinally, onSettled, generateFDFromAutoDetection. simpl.
  rewrite !(decide_True (P := Some p2 = Some p2)) by done.
  rewrite !(decide_False (P := Some p2 = Some p1)) by congruence.
  by destruct outcome2.
Qed.

Lemma detection_race_witness :
  batch_preview
    (onFinally (onSettled 2 (Some [{| dep_fid := "a"; params := [] |}])
       (onFinally (onSettled 1 (Some [])
          (generateFDFromAutoDetection 2
             (generateFDFromAutoDetection 1
                {| batch_preview := None; displayPreview := false;
                   pendingRef := None |}))))))
  = None
  ∧ batch_preview
      (onFinally (onFinally
         (onSettled 2 (Some [{| dep_fid := "a"; params := [] |}])
            (onSettled 1 (Some [])
               (generateFDFromAutoDetection 2
                  (generateFDFromAutoDetection 1
                     {| batch_preview := None; displayPreview := false;
                        pendingRef := None |}))))))
    = Some [{| dep_fid := "a"; params := [] |}].
Proof.
  destruct (detection_race 1 2 (Some [])
              (Some [{| dep_fid := "a"; params := [] |}])
              {| batch_preview := None; displayPreview := false;
                 pendingRef := None |}) as (H1 & H2 & _); [lia|].
  split; [exact H1 | exact H2].
Defined.
